(** * Resilience core of the Vertex AI prediction clients

    A shallow embedding of
      - [src/vertex-ai/python/prediction_client.py]
          ([CircuitBreaker], [PredictionClient.predict],
           [_make_prediction_request], [predict_batch]) and
      - [src/vertex-ai/python/vertex_ai_client.py]
          ([VertexAIClient.predict], [predict_async],
           [predict_batch_parallel]).

    Mutable Python objects become explicit state: the breaker is a record
    threaded through [CircuitBreaker.call]; the outside world (the clock read
    by [time.time()], the remote prediction service, the log and the sleeps)
    is a [World] record.  A raised exception is the [inl] of a sum. *)

From Stdlib Require Import ZArith Lia Ascii String.
From stdpp Require Import base list strings gmap pretty.

Local Open Scope string_scope.
Local Open Scope list_scope.
Local Open Scope Z_scope.

(** ** Exceptions *)

(** The exception classes the two modules raise or name.  Every class here
    derives from Python's [Exception]. *)
Inductive ExnClass :=
| Exception_
| ValueError_
| RequestException_
| PredictionError_
| QuotaExceededError_
| ModelUnavailableError_
| RetryError_.

#[export] Instance ExnClass_eq_dec : EqDecision ExnClass.
Proof. solve_decision. Defined.

(** [Raised c msg] is an instance of class [c] whose [str()] is [msg];
    [RetryError last] is tenacity's wrapper around the last attempt. *)
Inductive Exn :=
| Raised (cls : ExnClass) (msg : string)
| RetryError (last_attempt : Exn).

Definition class_of (e : Exn) : ExnClass :=
  match e with
  | Raised c _ => c
  | RetryError _ => RetryError_
  end.

(** [class PredictionError(Exception)], [class QuotaExceededError(PredictionError)],
    [class ModelUnavailableError(PredictionError)]. *)
Definition subclass (c d : ExnClass) : bool :=
  match d with
  | Exception_ => true
  | PredictionError_ =>
      match c with
      | PredictionError_ | QuotaExceededError_ | ModelUnavailableError_ => true
      | _ => false
      end
  | _ => bool_decide (c = d)
  end.

Definition isinstance (e : Exn) (c : ExnClass) : bool := subclass (class_of e) c.

(** [str(e)].  The text of a [RetryError] names the future it wraps (with
    its address), which is abbreviated here to the wrapped class's text. *)
Fixpoint str (e : Exn) : string :=
  match e with
  | Raised _ msg => msg
  | RetryError last => "RetryError[" +:+ str last +:+ "]"
  end.

Definition Result (A : Type) : Type := Exn + A.

(** ** Payloads *)

Inductive Value :=
| VBool (b : bool)
| VInt (n : Z)
| VStr (s : string).

(** A JSON-like dict; the payloads are passed through unchanged. *)
Definition Dict : Type := list (string * Value).

(** What [self.client.predict] answers. *)
Record RawResponse := {
  raw_predictions : list Dict;
  raw_deployed_model_id : string;
  raw_metadata : option Dict;
}.

Record PredictionResponse := {
  predictions : list Dict;
  deployed_model_id : string;
  metadata : Dict;
  latency_ms : Z;
}.

(** ** The outside world *)

Inductive Event :=
| EvRpc (instances : list Dict) (parameters : option Dict)
    (* self.client.predict(...) was issued *)
| EvSleep (seconds : Z)
    (* the retry layer slept between two attempts *)
| LogBreakerOpened (failures : Z)
    (* logger.error("Circuit breaker opened after N failures") *)
| LogPredictionFailed (e : Exn)
    (* logger.error("Prediction failed: ...") in predict *)
| LogPredictionSuccessful (num_predictions : nat)
    (* logger.info("Prediction successful: ...") *)
| LogProcessedBatch (k n : Z).
    (* logger.info("Processed batch k/n") *)

(** The remote prediction service: the outcome of its [k]-th invocation and
    how long that invocation takes. *)
Record Remote := {
  reply : nat → list Dict → option Dict → Result RawResponse;
  took : nat → Z;
}.

Record World := {
  clock : Z;            (* what time.time() returns, in seconds *)
  rpc_count : nat;      (* invocations of the remote service so far *)
  trace : list Event;   (* effects so far, oldest first *)
}.

Definition emit (ev : Event) (w : World) : World :=
  {| clock := clock w; rpc_count := rpc_count w; trace := trace w ++ [ev] |}.

Definition sleep (seconds : Z) (w : World) : World :=
  {| clock := clock w + seconds; rpc_count := rpc_count w;
     trace := trace w ++ [EvSleep seconds] |}.

(** ** CircuitBreaker *)

Inductive CircuitBreakerState := CLOSED | OPEN | HALF_OPEN.

#[export] Instance CircuitBreakerState_eq_dec : EqDecision CircuitBreakerState.
Proof. solve_decision. Defined.

Record CircuitBreaker := {
  failure_threshold : Z;
  recovery_timeout : Z;
  expected_exception : ExnClass;
  failure_count : Z;
  last_failure_time : option Z;
  state : CircuitBreakerState;
}.

(** [CircuitBreaker.__init__] *)
Definition CircuitBreaker_init (failure_threshold recovery_timeout : Z)
    (expected_exception : ExnClass) : CircuitBreaker :=
  {| failure_threshold := failure_threshold;
     recovery_timeout := recovery_timeout;
     expected_exception := expected_exception;
     failure_count := 0;
     last_failure_time := None;
     state := CLOSED |}.

Definition set_state (s : CircuitBreakerState) (cb : CircuitBreaker) : CircuitBreaker :=
  {| failure_threshold := failure_threshold cb;
     recovery_timeout := recovery_timeout cb;
     expected_exception := expected_exception cb;
     failure_count := failure_count cb;
     last_failure_time := last_failure_time cb;
     state := s |}.

(** [CircuitBreaker._should_attempt_reset] *)
Definition _should_attempt_reset (cb : CircuitBreaker) (w : World) : bool :=
  match last_failure_time cb with
  | None => false
  | Some t => bool_decide (recovery_timeout cb ≤ clock w - t)
  end.

(** [CircuitBreaker._on_success] *)
Definition _on_success (cb : CircuitBreaker) : CircuitBreaker :=
  {| failure_threshold := failure_threshold cb;
     recovery_timeout := recovery_timeout cb;
     expected_exception := expected_exception cb;
     failure_count := 0;
     last_failure_time := last_failure_time cb;
     state := CLOSED |}.

(** [CircuitBreaker._on_failure] *)
Definition _on_failure (cb : CircuitBreaker) (w : World) : CircuitBreaker * World :=
  let cb1 :=
    {| failure_threshold := failure_threshold cb;
       recovery_timeout := recovery_timeout cb;
       expected_exception := expected_exception cb;
       failure_count := failure_count cb + 1;
       last_failure_time := Some (clock w);
       state := state cb |} in
  if bool_decide (failure_threshold cb1 ≤ failure_count cb1)
  then (set_state OPEN cb1, emit (LogBreakerOpened (failure_count cb1)) w)
  else (cb1, w).

Definition circuit_open_error : Exn :=
  Raised ModelUnavailableError_ "Circuit breaker is OPEN".

(** The [try] block of [CircuitBreaker.call]. *)
Definition call_guarded {A} (cb : CircuitBreaker) (func : World → Result A * World)
    (w : World) : Result A * CircuitBreaker * World :=
  let '(r, w1) := func w in
  match r with
  | inr result => (inr result, _on_success cb, w1)
  | inl e =>
      if isinstance e (expected_exception cb)
      then let '(cb2, w2) := _on_failure cb w1 in (inl e, cb2, w2)
      else (inl e, cb, w1)
  end.

(** [CircuitBreaker.call] *)
Definition CircuitBreaker_call {A} (cb : CircuitBreaker)
    (func : World → Result A * World) (w : World)
    : Result A * CircuitBreaker * World :=
  if bool_decide (state cb = OPEN) then
    if _should_attempt_reset cb w
    then call_guarded (set_state HALF_OPEN cb) func w
    else (inl circuit_open_error, cb, w)
  else call_guarded cb func w.

(** ** Text helpers: [str.lower()] and [needle in haystack] *)

(** Texts are byte strings; [lower] maps the ASCII capitals to small letters
    and leaves every other byte as it is. *)
Definition lower_ascii (c : ascii) : ascii :=
  let n := nat_of_ascii c in
  if ((65 <=? n) && (n <=? 90))%nat then ascii_of_nat (n + 32) else c.

Fixpoint lower (s : string) : string :=
  match s with
  | EmptyString => EmptyString
  | String c rest => String (lower_ascii c) (lower rest)
  end.

Fixpoint contains (needle haystack : string) : bool :=
  String.prefix needle haystack ||
  match haystack with
  | EmptyString => false
  | String _ rest => contains needle rest
  end.

(** ** PredictionClient *)

(** The [except Exception as e] handler of [_make_prediction_request]:
    [error_msg] is [str(e)] of whatever the remote call raised. *)
Definition classify (error_msg : string) : Exn :=
  if contains "quota" (lower error_msg) || contains "429" error_msg then
    Raised QuotaExceededError_ ("Quota exceeded: " +:+ error_msg)
  else if contains "503" error_msg || contains "unavailable" (lower error_msg) then
    Raised ModelUnavailableError_ ("Model unavailable: " +:+ error_msg)
  else
    Raised PredictionError_ ("Prediction failed: " +:+ error_msg).

(** One invocation of the remote service, [self.client.predict(...)]: it is
    recorded, it takes [took] seconds, and it answers [reply]. *)
Definition client_predict (remote : Remote) (instances : list Dict)
    (parameters : option Dict) (w : World) : Result RawResponse * World :=
  let k := rpc_count w in
  (reply remote k instances parameters,
   {| clock := clock w + took remote k;
      rpc_count := S k;
      trace := trace w ++ [EvRpc instances parameters] |}).

(** [parameters_proto = None; if parameters: parameters_proto = ...]: a
    missing or empty dict is falsy and sends no parameters. *)
Definition if_parameters (parameters : option Dict) : option Dict :=
  match parameters with
  | Some (_ :: _) => parameters
  | _ => None
  end.

(** [PredictionClient._make_prediction_request] *)
Definition _make_prediction_request (remote : Remote) (instances : list Dict)
    (parameters : option Dict) (w : World) : Result PredictionResponse * World :=
  let start_time := clock w in
  let parameters_proto := if_parameters parameters in
  match client_predict remote instances parameters_proto w with
  | (inl e, w1) =>
      let error_msg := str e in
      (inl (classify error_msg), w1)
  | (inr response, w1) =>
      let latency_ms := (clock w1 - start_time) * 1000 in
      let predictions := raw_predictions response in
      let metadata := default [] (raw_metadata response) in
      (inr {| predictions := predictions;
              deployed_model_id := raw_deployed_model_id response;
              metadata := metadata;
              latency_ms := latency_ms |},
       emit (LogPredictionSuccessful (length predictions)) w1)
  end.

(** *** The retry decorator (tenacity) *)

(** The arguments of [tenacity.retry]; [reraise] is the keyword the decorator
    of [predict] leaves at its default. *)
Record RetryPolicy := {
  max_attempt_number : Z;        (* stop_after_attempt(n) *)
  multiplier : Z;                (* wait_exponential(multiplier, min, max) *)
  min_wait : Z;
  max_wait : Z;
  retry_on : list ExnClass;      (* retry_if_exception_type(types) *)
  reraise : bool;
}.

(** [stop_after_attempt]: stop once [attempt_number >= max_attempt_number]. *)
Definition stop_after_attempt (policy : RetryPolicy) (attempt_number : Z) : bool :=
  bool_decide (max_attempt_number policy ≤ attempt_number).

(** [wait_exponential] with [exp_base = 2], for the attempt that just failed. *)
Definition wait_exponential (policy : RetryPolicy) (attempt_number : Z) : Z :=
  let exp := 2 ^ (attempt_number - 1) in
  let result := multiplier policy * exp in
  Z.max (Z.max 0 (min_wait policy)) (Z.min result (max_wait policy)).

Definition retry_if_exception_type (policy : RetryPolicy) (e : Exn) : bool :=
  existsb (isinstance e) (retry_on policy).

(** How many further attempts [stop_after_attempt] allows after attempt
    [attempt_number]. *)
Definition attempts_left (policy : RetryPolicy) (attempt_number : Z) : nat :=
  Z.to_nat (max_attempt_number policy - attempt_number).

Section Retrying.
Context {S A : Type}.
Variable policy : RetryPolicy.
Variable do_sleep : Z → S → S.
Variable fn : S → Result A * S.

(** The loop of [Retrying.__call__]: attempt, then return the result, or
    give up, or sleep and attempt again.  [left] is
    [attempts_left policy attempt_number], so [left = 0] is the moment
    [stop_after_attempt] answers true. *)
Fixpoint retry_loop (left : nat) (attempt_number : Z) (s : S) : Result A * S :=
  let '(outcome, s1) := fn s in
  match outcome with
  | inr result => (inr result, s1)
  | inl e =>
      if negb (retry_if_exception_type policy e) then (inl e, s1)
      else
        match left with
        | O => if reraise policy then (inl e, s1) else (inl (RetryError e), s1)
        | Datatypes.S left' =>
            retry_loop left' (attempt_number + 1)
              (do_sleep (wait_exponential policy attempt_number) s1)
        end
  end.

Definition Retrying_call (s : S) : Result A * S :=
  retry_loop (attempts_left policy 1) 1 s.
End Retrying.

(** *** predict *)

(** [instances: Union[Dict, List[Dict]]] *)
Inductive Instances :=
| Single (instance : Dict)
| Many (instances : list Dict).

(** The mutable state a call works on: the client's breaker and the world. *)
Definition St : Type := CircuitBreaker * World.

Definition St_sleep (seconds : Z) (st : St) : St := (st.1, sleep seconds st.2).

(** [PredictionClient.__init__] builds the breaker with these arguments. *)
Definition PredictionClient_circuit_breaker : CircuitBreaker :=
  CircuitBreaker_init 5 60 Exception_.

(** The body of [PredictionClient.predict], without its decorator. *)
Definition predict_body (remote : Remote) (instances : Instances)
    (parameters : option Dict) (st : St) : Result PredictionResponse * St :=
  let instances :=
    match instances with
    | Single d => [d]      (* [if isinstance(instances, dict)] *)
    | Many l => l
    end in
  let '(r, cb, w) :=
    CircuitBreaker_call st.1 (_make_prediction_request remote instances parameters) st.2 in
  match r with
  | inr result => (inr result, (cb, w))
  | inl e => (inl e, (cb, emit (LogPredictionFailed e) w))
  end.

(** [@retry(stop=stop_after_attempt(3),
            wait=wait_exponential(multiplier=1, min=1, max=10),
            retry=retry_if_exception_type((RequestException, Exception)))] *)
Definition predict_retry : RetryPolicy :=
  {| max_attempt_number := 3;
     multiplier := 1;
     min_wait := 1;
     max_wait := 10;
     retry_on := [RequestException_; Exception_];
     reraise := false |}.

(** [PredictionClient.predict] *)
Definition predict (remote : Remote) (instances : Instances)
    (parameters : option Dict) (st : St) : Result PredictionResponse * St :=
  Retrying_call predict_retry St_sleep (predict_body remote instances parameters) st.

(** *** predict_batch *)

(** [len(range(start, stop, step))] for [step ≠ 0]. *)
Definition range_len (start stop step : Z) : nat :=
  if bool_decide (0 < step) then
    if bool_decide (start < stop) then Z.to_nat ((stop - start - 1) / step + 1) else O
  else
    if bool_decide (stop < start) then Z.to_nat ((start - stop - 1) / (- step) + 1) else O.

(** [range(start, stop, step)]; a zero step raises [ValueError]. *)
Definition range (start stop step : Z) : Result (list Z) :=
  if bool_decide (step = 0) then
    inl (Raised ValueError_ "range() arg 3 must not be zero")
  else
    inr ((λ k : nat, start + Z.of_nat k * step) <$> seq 0 (range_len start stop step)).

(** [l[i:j]] for [0 ≤ i]; a [j] at or below [i] gives the empty list and a
    [j] past the end is clamped, as in Python. *)
Definition slice {A} (l : list A) (i j : Z) : list A :=
  take (Z.to_nat (j - i)) (drop (Z.to_nat i) l).

Section PredictBatch.
(** [self.predict], the method the loop calls on each chunk. *)
Variable self_predict : list Dict → option Dict → St → Result PredictionResponse * St.
Variable instances : list Dict.
Variable batch_size : Z.
Variable parameters : option Dict.

(** The body of the [for i in range(...)] loop, over the remaining
    indices, with the accumulator [responses]. *)
Fixpoint predict_batch_loop (indices : list Z) (responses : list PredictionResponse)
    (st : St) : Result (list PredictionResponse) * St :=
  match indices with
  | [] => (inr responses, st)
  | i :: rest =>
      let batch := slice instances i (i + batch_size) in
      match self_predict batch parameters st with
      | (inl e, st1) => (inl e, st1)
      | (inr response, st1) =>
          let processed :=
            LogProcessedBatch (i / batch_size + 1)
              ((Z.of_nat (length instances) - 1) / batch_size + 1) in
          predict_batch_loop rest (responses ++ [response])
            (st1.1, emit processed st1.2)
      end
  end.

Definition predict_batch_with (st : St) : Result (list PredictionResponse) * St :=
  match range 0 (Z.of_nat (length instances)) batch_size with
  | inl e => (inl e, st)
  | inr indices => predict_batch_loop indices [] st
  end.
End PredictBatch.

(** [PredictionClient.predict_batch] *)
Definition predict_batch (remote : Remote) (instances : list Dict) (batch_size : Z)
    (parameters : option Dict) (st : St) : Result (list PredictionResponse) * St :=
  predict_batch_with (λ batch, predict remote (Many batch)) instances batch_size parameters st.

(** ** VertexAIClient *)

(** [endpoint.predict(instances=..., parameters=...).predictions], or the
    exception the call raises. *)
Definition Endpoint : Type := list Dict → option Dict → Result (list Dict).

(** [VertexAIClient.predict] *)
Definition VertexAIClient_predict (endpoint : Endpoint) (instances : list Dict)
    (parameters : option Dict) : Result (list Dict) :=
  endpoint instances parameters.

(** [VertexAIClient.predict_async]: the same call, run on a worker thread;
    awaiting it gives the call's result or raises its exception. *)
Definition predict_async (endpoint : Endpoint) (instances : list Dict)
    (parameters : option Dict) : Result (list Dict) :=
  VertexAIClient_predict endpoint instances parameters.

(** A task that finishes stores its result, or its exception, in the slot
    of its own position. *)
Definition finish_task {A} (tasks : list (Result A))
    (slots : list (option (Result A))) (i : nat) : list (option (Result A)) :=
  match tasks !! i with
  | Some outcome => <[i := Some outcome]> slots
  | None => slots
  end.

(** [asyncio.gather] over the tasks with [return_exceptions=True].  Tasks
    finish in the order [completion].  The gather returns when no slot is
    pending, and never ([None]) if some task does not finish. *)
Definition gather_return_exceptions {A} (tasks : list (Result A))
    (completion : list nat) : option (list (Result A)) :=
  let pending : list (option (Result A)) := replicate (length tasks) None in
  mapM id (foldl (finish_task tasks) pending completion).

(** [VertexAIClient.predict_batch_parallel].  The endpoint may answer each of
    the concurrent calls differently: [endpoint i] is what the call of task
    [i] meets. *)
Definition predict_batch_parallel (endpoint : nat → Endpoint)
    (batch_instances : list (list Dict)) (parameters : option Dict)
    (completion : list nat) : option (Result (list (list Dict))) :=
  let tasks :=
    imap (λ i instances, predict_async (endpoint i) instances parameters) batch_instances in
  results ← gather_return_exceptions tasks completion;
  let successful_results :=
    foldl (λ (acc : list (list Dict)) (result : Result (list Dict)),
             match result with
             | inl _ => acc ++ [[]]
             | inr r => acc ++ [r]
             end) [] results in
  Some (inr successful_results).

(** ** The layering as the specification words it *)

Module Spec.
(** One raw invocation of the remote service, unclassified. *)
Definition invoke (remote : Remote) (instances : list Dict)
    (parameters : option Dict) (w : World) : Result RawResponse * World :=
  client_predict remote instances parameters w.

(** "CircuitBreaker.call wrapping RetryPolicy-wrapped RemoteInvoker.invoke":
    the breaker is entered once per logical call and the retry loop runs
    inside it. *)
Definition predict (remote : Remote) (instances : list Dict)
    (parameters : option Dict) (st : St) : Result RawResponse * St :=
  let '(r, cb, w) :=
    CircuitBreaker_call st.1
      (Retrying_call predict_retry sleep (invoke remote instances parameters)) st.2 in
  (r, (cb, w)).
End Spec.

(** ** Vocabulary of the statements *)

(** A call is let through to the wrapped function unless the breaker is
    OPEN and the recovery timeout has not elapsed. *)
Definition permits (cb : CircuitBreaker) (w : World) : bool :=
  negb (bool_decide (state cb = OPEN)) || _should_attempt_reset cb w.

(** Away from CLOSED the counter has reached the threshold and a failure
    time is on record. *)
Definition tripped (cb : CircuitBreaker) : Prop :=
  state cb ≠ CLOSED →
  failure_threshold cb ≤ failure_count cb ∧ is_Some (last_failure_time cb).

Section BreakerRuns.
Context {A : Type}.

(** One call through the breaker, with any wrapped function at any moment. *)
Definition step (cb : CircuitBreaker) (func : World → Result A * World)
    (w : World) : CircuitBreaker :=
  (CircuitBreaker_call cb func w).1.2.

(** The states a breaker passes through: the states between calls, and the
    state the wrapped function runs under. *)
Inductive reachable (cb0 : CircuitBreaker) : CircuitBreaker → Prop :=
| reachable_init : reachable cb0 cb0
| reachable_call cb func w :
    reachable cb0 cb → reachable cb0 (step cb func w)
| reachable_trial cb w :
    reachable cb0 cb → state cb = OPEN → _should_attempt_reset cb w = true →
    reachable cb0 (set_state HALF_OPEN cb).

(** [failures cb0 times cb]: from [cb0], a run of consecutive calls, each of
    which reached the wrapped function and saw it fail, ends in [cb];
    [times] lists the clock at the end of each failed call. *)
Inductive failures (cb0 : CircuitBreaker) : list Z → CircuitBreaker → Prop :=
| failures_nil : failures cb0 [] cb0
| failures_snoc times cb func w e w1 :
    failures cb0 times cb →
    permits cb w = true →
    func w = (inl e, w1) →
    failures cb0 (times ++ [clock w1]) (step cb func w).
End BreakerRuns.

(** [instances] after [if isinstance(instances, dict): instances = [instances]]. *)
Definition as_list (instances : Instances) : list Dict :=
  match instances with
  | Single d => [d]
  | Many l => l
  end.

(** The signals the classification looks for in the text of a failure. *)
Definition quota_signal (msg : string) : bool :=
  contains "quota" (lower msg) || contains "429" msg.

Definition unavailable_signal (msg : string) : bool :=
  contains "503" msg || contains "unavailable" (lower msg).

(** Inputs for the examples. *)

(** A wrapped function that fails, taking [d] seconds. *)
Definition failing_call (d : Z) (w : World) : Result unit * World :=
  (inl (Raised Exception_ "boom"),
   {| clock := clock w + d; rpc_count := S (rpc_count w); trace := trace w |}).

(** A wrapped function that succeeds and counts its invocation. *)
Definition counted_call (w : World) : Result unit * World :=
  (inr (), {| clock := clock w; rpc_count := S (rpc_count w); trace := trace w |}).

Definition world_at (t : Z) : World := {| clock := t; rpc_count := 0; trace := [] |}.

(** A remote service whose every invocation raises [Exception(msg)] at once. *)
Definition always_failing (msg : string) : Remote :=
  {| reply := λ _ _ _, inl (Raised Exception_ msg); took := λ _, 0 |}.

(** A hundred distinct instances. *)
Definition hundred : list Dict := (λ i : nat, [("i", VInt (Z.of_nat i))]) <$> seq 0 100.

Definition some_response : RawResponse :=
  {| raw_predictions := []; raw_deployed_model_id := "model"; raw_metadata := None |}.

(** A remote service that answers its first [k] invocations and fails after. *)
Definition answering_first (k : nat) : Remote :=
  {| reply := λ i _ _,
       if bool_decide (i < k)%nat then inr some_response
       else inl (Raised Exception_ "boom");
     took := λ _, 0 |}.

(** A stand-in for [self.predict] that records the chunk it is called on and
    fails on its call number [fail_at] (counting from 0). *)
Definition recording_predict (fail_at : nat) (batch : list Dict)
    (parameters : option Dict) (st : St) : Result PredictionResponse * St :=
  let w := st.2 in
  (if bool_decide (rpc_count w = fail_at) then inl (Raised PredictionError_ "boom")
   else inr {| predictions := batch; deployed_model_id := "model";
               metadata := []; latency_ms := 0 |},
   (st.1, {| clock := clock w; rpc_count := S (rpc_count w);
             trace := trace w ++ [EvRpc batch parameters] |})).

(** The instance lists of the remote invocations in a trace, in order. *)
Fixpoint rpc_batches (tr : list Event) : list (list Dict) :=
  match tr with
  | [] => []
  | EvRpc instances _ :: rest => instances :: rpc_batches rest
  | _ :: rest => rpc_batches rest
  end.

(** The number of remote invocations in a stretch of the trace. *)
Fixpoint rpcs (tr : list Event) : nat :=
  match tr with
  | [] => O
  | EvRpc _ _ :: rest => S (rpcs rest)
  | _ :: rest => rpcs rest
  end.

(** What one attempt of [predict] leaves in the trace; the flag says whether
    the attempt returned a response. *)
Inductive attempt_block : bool → list Event → Prop :=
| block_rejected :
    attempt_block false [LogPredictionFailed circuit_open_error]
| block_failed instances parameters e :
    attempt_block false [EvRpc instances parameters; LogPredictionFailed e]
| block_failed_opened instances parameters n e :
    attempt_block false
      [EvRpc instances parameters; LogBreakerOpened n; LogPredictionFailed e]
| block_succeeded instances parameters k :
    attempt_block true [EvRpc instances parameters; LogPredictionSuccessful k].

(** Attempts [n], [n+1], ... laid out in time, with the wait the
    specification gives between attempt [n] and attempt [n+1]:
    [min(max_wait, base_wait * 2^(n-1))] for [base_wait = 1], [max_wait = 10]. *)
Fixpoint join_attempts (n : Z) (blocks : list (list Event)) : list Event :=
  match blocks with
  | [] => []
  | [b] => b
  | b :: rest => b ++ EvSleep (Z.min 10 (1 * 2 ^ (n - 1))) :: join_attempts (n + 1) rest
  end.

Definition succeeded {A} (r : Result A) : bool :=
  match r with
  | inr _ => true
  | inl _ => false
  end.

Section Sequential.
Variable self_predict : list Dict → option Dict → St → Result PredictionResponse * St.
Variable parameters : option Dict.

(** Sequential, fail-fast processing of a list of chunks: [k] chunks have
    been answered before; the first failure is the outcome and no later
    chunk is touched. *)
Inductive sequential (total : Z) : Z → list (list Dict) → St →
    Result (list PredictionResponse) * St → Prop :=
| sequential_done k st :
    sequential total k [] st (inr [], st)
| sequential_abort k batch rest st e st1 :
    self_predict batch parameters st = (inl e, st1) →
    sequential total k (batch :: rest) st (inl e, st1)
| sequential_next k batch rest st response st1 out st2 :
    self_predict batch parameters st = (inr response, st1) →
    sequential total (k + 1) rest
      (st1.1, emit (LogProcessedBatch (k + 1) total) st1.2) (out, st2) →
    sequential total k (batch :: rest) st
      (match out with
       | inl e => inl e
       | inr responses => inr (response :: responses)
       end, st2).
End Sequential.

(** The windows [instances[i:i+batch_size]] for [i = 0, batch_size, ...]. *)
Definition batches (instances : list Dict) (batch_size : Z) : list (list Dict) :=
  match range 0 (Z.of_nat (length instances)) batch_size with
  | inl _ => []
  | inr indices => (λ i, slice instances i (i + batch_size)) <$> indices
  end.


(** ** Further operations of the two clients *)

(** [PredictionClient.health_check].  Beside the verdict it gives the
    exception whose text the error line of the log carries, if any. *)
Definition health_check (remote : Remote) (st : St) : (bool * option Exn) * St :=
  match predict remote (Single [("health_check", VBool true)]) None st with
  | (inr _, st1) => ((true, None), st1)
  | (inl e, st1) => ((false, Some e), st1)
  end.

(** [sum(traffic_split.values())] *)
Definition total_traffic (traffic_split : gmap string Z) : Z :=
  map_fold (λ _ percentage total, percentage + total) 0 traffic_split.

(** [VertexAIClient.update_traffic_split].  The endpoint is seen through the
    calls it receives: [updates] lists the arguments of the
    [endpoint.update(traffic_split=...)] calls so far, oldest first. *)
Definition update_traffic_split (traffic_split : gmap string Z)
    (updates : list (gmap string Z)) : Result unit * list (gmap string Z) :=
  let total := total_traffic traffic_split in
  if bool_decide (total ≠ 100) then
    (inl (Raised ValueError_ ("Traffic split must sum to 100, got " +:+ pretty total)),
     updates)
  else
    (inr (), updates ++ [traffic_split]).



(** ** Further vocabulary *)

(** The arguments of the remote invocations in a stretch of the trace. *)
Fixpoint rpc_calls (tr : list Event) : list (list Dict * option Dict) :=
  match tr with
  | [] => []
  | EvRpc instances parameters :: rest => (instances, parameters) :: rpc_calls rest
  | _ :: rest => rpc_calls rest
  end.

(** The waits of the retry layer in a stretch of the trace. *)
Fixpoint sleeps (tr : list Event) : list Z :=
  match tr with
  | [] => []
  | EvSleep seconds :: rest => seconds :: sleeps rest
  | _ :: rest => sleeps rest
  end.

(** The time the remote service takes for [n] invocations from its [k]-th. *)
Fixpoint remote_time (remote : Remote) (k n : nat) : Z :=
  match n with
  | O => 0
  | S n' => took remote k + remote_time remote (S k) n'
  end.

(** The response [_make_prediction_request] builds from an answer of the
    remote service that took [seconds]. *)
Definition response_of (raw : RawResponse) (seconds : Z) : PredictionResponse :=
  {| predictions := raw_predictions raw;
     deployed_model_id := raw_deployed_model_id raw;
     metadata := default [] (raw_metadata raw);
     latency_ms := seconds * 1000 |}.

(** A remote service that fails at once on every invocation, with a text
    that depends on the invocation. *)
Definition failing_with (msg : nat → string) : Remote :=
  {| reply := λ k _ _, inl (Raised Exception_ (msg k)); took := λ _, 0 |}.

(** The counter is never negative and a Closed breaker is below its
    threshold. *)
Definition below_threshold (cb : CircuitBreaker) : Prop :=
  0 ≤ failure_count cb ∧ (state cb = CLOSED → failure_count cb < failure_threshold cb).

(** * Properties *)

(** ** The circuit breaker *)

Lemma isinstance_Exception e : isinstance e Exception_ = true.
Proof. reflexivity. Qed.

Lemma on_failure_count cb w :
  failure_count (_on_failure cb w).1 = failure_count cb + 1.
Proof. unfold _on_failure; simpl. case_bool_decide; reflexivity. Qed.

Lemma on_failure_time cb w :
  last_failure_time (_on_failure cb w).1 = Some (clock w).
Proof. unfold _on_failure; simpl. case_bool_decide; reflexivity. Qed.

Lemma on_failure_state cb w :
  state (_on_failure cb w).1 =
  if bool_decide (failure_threshold cb ≤ failure_count cb + 1) then OPEN else state cb.
Proof. unfold _on_failure; simpl. case_bool_decide; reflexivity. Qed.

Lemma on_failure_config cb w :
  failure_threshold (_on_failure cb w).1 = failure_threshold cb ∧
  recovery_timeout (_on_failure cb w).1 = recovery_timeout cb ∧
  expected_exception (_on_failure cb w).1 = expected_exception cb.
Proof. unfold _on_failure; simpl. case_bool_decide; auto. Qed.

Section CallCases.
Context {A : Type}.
Implicit Types (cb : CircuitBreaker) (func : World → Result A * World) (w : World).

Lemma call_rejected cb func w :
  permits cb w = false →
  CircuitBreaker_call cb func w = (inl circuit_open_error, cb, w).
Proof.
  unfold permits, CircuitBreaker_call. case_bool_decide; simpl; [|done].
  by intros ->.
Qed.

Lemma call_permitted cb func w :
  permits cb w = true →
  CircuitBreaker_call cb func w =
  call_guarded (if bool_decide (state cb = OPEN) then set_state HALF_OPEN cb else cb) func w.
Proof.
  unfold permits, CircuitBreaker_call. case_bool_decide; simpl; [|done].
  by intros ->.
Qed.

Lemma call_success cb func w result w1 :
  permits cb w = true → func w = (inr result, w1) →
  CircuitBreaker_call cb func w = (inr result, _on_success cb, w1).
Proof.
  intros Hp Hf. rewrite (call_permitted _ _ _ Hp). unfold call_guarded. rewrite Hf.
  by case_bool_decide.
Qed.

Lemma call_failure cb func w e w1 :
  permits cb w = true → func w = (inl e, w1) →
  isinstance e (expected_exception cb) = true →
  let cb' := step cb func w in
  (CircuitBreaker_call cb func w).1.1 = inl e ∧
  failure_count cb' = failure_count cb + 1 ∧
  last_failure_time cb' = Some (clock w1) ∧
  state cb' =
    (if bool_decide (failure_threshold cb ≤ failure_count cb + 1) then OPEN
     else if bool_decide (state cb = OPEN) then HALF_OPEN else state cb) ∧
  failure_threshold cb' = failure_threshold cb ∧
  recovery_timeout cb' = recovery_timeout cb ∧
  expected_exception cb' = expected_exception cb.
Proof.
  intros Hp Hf He. unfold step. rewrite (call_permitted _ _ _ Hp).
  unfold call_guarded. rewrite Hf.
  set (cbm := if bool_decide (state cb = OPEN) then set_state HALF_OPEN cb else cb).
  assert (Hm : expected_exception cbm = expected_exception cb ∧
               failure_count cbm = failure_count cb ∧
               failure_threshold cbm = failure_threshold cb ∧
               recovery_timeout cbm = recovery_timeout cb ∧
               state cbm = if bool_decide (state cb = OPEN) then HALF_OPEN else state cb).
  { subst cbm. case_bool_decide; simpl; auto. }
  destruct Hm as (Hx & Hc & Ht & Hr & Hs). rewrite Hx, He.
  pose proof (on_failure_count cbm w1) as H1.
  pose proof (on_failure_time cbm w1) as H2.
  pose proof (on_failure_state cbm w1) as H3.
  pose proof (on_failure_config cbm w1) as (H4 & H5 & H6).
  destruct (_on_failure cbm w1) as [cb2 w2]; simpl in *.
  rewrite H1, H2, H3, H4, H5, H6, Hc, Ht, Hr, Hx, Hs. auto 10.
Qed.

Lemma step_config cb func w :
  failure_threshold (step cb func w) = failure_threshold cb ∧
  recovery_timeout (step cb func w) = recovery_timeout cb ∧
  expected_exception (step cb func w) = expected_exception cb.
Proof.
  unfold step, CircuitBreaker_call, call_guarded.
  repeat case_bool_decide; repeat case_match; simplify_eq; simpl; auto;
    match goal with
    | H : _on_failure ?c ?x = _ |- _ =>
        pose proof (on_failure_config c x) as (? & ? & ?); rewrite H in *; simpl in *; auto
    end.
Qed.
End CallCases.


Section BreakerInvariant.
Context {A : Type}.
Implicit Types (cb : CircuitBreaker) (func : World → Result A * World) (w : World).

Lemma tripped_set_half_open cb :
  tripped cb → state cb = OPEN → tripped (set_state HALF_OPEN cb).
Proof. intros H Ho _. simpl. apply H. by rewrite Ho. Qed.

Lemma tripped_step cb func w : tripped cb → tripped (step cb func w).
Proof.
  intros Hinv. destruct (permits cb w) eqn:Hp.
  2:{ unfold step. by rewrite (call_rejected _ _ _ Hp). }
  destruct (func w) as [[e|result] w1] eqn:Hf.
  2:{ unfold step. rewrite (call_success _ _ _ _ _ Hp Hf). by intros []. }
  destruct (isinstance e (expected_exception cb)) eqn:He.
  - destruct (call_failure _ _ _ _ _ Hp Hf He) as (_ & Hc & Ht & Hs & Hth & _).
    intros Hne. rewrite Hc, Ht, Hth. split; [|by eexists].
    rewrite Hs in Hne. case_bool_decide; [lia|].
    assert (state cb ≠ CLOSED) as Hcb.
    { case_bool_decide; congruence. }
    destruct (Hinv Hcb). lia.
  - unfold step. rewrite (call_permitted _ _ _ Hp). unfold call_guarded. rewrite Hf.
    case_bool_decide as Ho; simpl; rewrite He; simpl; [|done].
    by apply tripped_set_half_open.
Qed.

Lemma reachable_tripped cb0 cb :
  tripped cb0 → reachable (A:=A) cb0 cb → tripped cb.
Proof.
  intros H0. induction 1; auto using tripped_step, tripped_set_half_open.
Qed.

Lemma reachable_config cb0 cb :
  reachable (A:=A) cb0 cb →
  failure_threshold cb = failure_threshold cb0 ∧
  recovery_timeout cb = recovery_timeout cb0 ∧
  expected_exception cb = expected_exception cb0.
Proof.
  induction 1 as [|cb func w _ (?&?&?)|cb w _ (?&?&?)]; simpl; auto.
  destruct (step_config cb func w) as (?&?&?). repeat split; congruence.
Qed.
End BreakerInvariant.

(** C10. In every state reachable from the initial Closed state by calls
    through the breaker, an Open or HalfOpen breaker has a failure counter
    of at least [failure_threshold] and a recorded last-failure time. *)
Theorem open_or_half_open_has_tripped {A : Type}
    (threshold timeout : Z) (expected : ExnClass) (cb : CircuitBreaker) :
  reachable (A:=A) (CircuitBreaker_init threshold timeout expected) cb →
  state cb = OPEN ∨ state cb = HALF_OPEN →
  threshold ≤ failure_count cb ∧ last_failure_time cb ≠ None.
Proof.
  intros Hr Hs.
  destruct (reachable_config _ _ Hr) as (Hth & _). simpl in Hth.
  assert (tripped cb) as Hinv.
  { eapply reachable_tripped; [|exact Hr]. by intros []. }
  destruct Hinv as [Hc [t Ht]]; [destruct Hs; congruence|].
  split; [lia | congruence].
Qed.


Lemma open_or_half_open_has_tripped_witness :
  let cb := step (CircuitBreaker_init 1 60 Exception_) (failing_call 0) (world_at 7) in
  state cb = OPEN ∧ 1 ≤ failure_count cb ∧ last_failure_time cb ≠ None.
Proof.
  intros cb. split; [reflexivity|].
  apply (open_or_half_open_has_tripped (A:=unit) 1 60 Exception_ cb).
  - apply reachable_call, reachable_init.
  - left. reflexivity.
Defined.

(** C2. A call made while the breaker is Open, with a failure time on
    record: before the recovery timeout has elapsed the call is rejected
    with [ModelUnavailableError], message "Circuit breaker is OPEN" (the
    specification's "circuit breaker is open", up to letter case), and
    neither the breaker nor the world changes, so the wrapped function is
    not invoked; once the timeout has elapsed the breaker goes to HalfOpen
    and the wrapped function runs on the world the call was made in. *)
Theorem open_breaker_rejects_until_timeout {A : Type}
    (cb : CircuitBreaker) (func : World → Result A * World) (w : World) (t : Z) :
  state cb = OPEN →
  last_failure_time cb = Some t →
  (clock w - t < recovery_timeout cb →
     CircuitBreaker_call cb func w = (inl circuit_open_error, cb, w) ∧
     class_of circuit_open_error = ModelUnavailableError_ ∧
     lower (str circuit_open_error) = "circuit breaker is open") ∧
  (recovery_timeout cb ≤ clock w - t →
     CircuitBreaker_call cb func w = call_guarded (set_state HALF_OPEN cb) func w ∧
     state (set_state HALF_OPEN cb) = HALF_OPEN ∧
     (CircuitBreaker_call cb func w).1.1 = (func w).1 ∧
     rpc_count (CircuitBreaker_call cb func w).2 = rpc_count (func w).2).
Proof.
  intros Ho Ht. split; intros Hel.
  - split; [|done]. apply call_rejected. unfold permits, _should_attempt_reset.
    rewrite Ho, Ht. simpl. case_bool_decide; [lia|done].
  - assert (permits cb w = true) as Hp.
    { unfold permits, _should_attempt_reset. rewrite Ho, Ht. simpl.
      case_bool_decide; [done|lia]. }
    rewrite (call_permitted _ _ _ Hp). rewrite Ho. simpl.
    split; [done|]. split; [done|].
    unfold call_guarded. destruct (func w) as [[e|r] w1]; simpl; [|done].
    destruct (isinstance e (expected_exception cb)); [|done].
    unfold _on_failure; simpl. by case_bool_decide.
Qed.

Lemma open_breaker_rejects_until_timeout_witness :
  let cb := step (CircuitBreaker_init 1 60 Exception_) (failing_call 0) (world_at 0) in
  (CircuitBreaker_call cb counted_call (world_at 59) = (inl circuit_open_error, cb, world_at 59)) ∧
  ((CircuitBreaker_call cb counted_call (world_at 60)).1.1 = inr () ∧
   rpc_count (CircuitBreaker_call cb counted_call (world_at 60)).2 = 1%nat).
Proof.
  intros cb. split.
  - apply (open_breaker_rejects_until_timeout cb counted_call (world_at 59) 0);
      [reflexivity | reflexivity | simpl; lia].
  - destruct (open_breaker_rejects_until_timeout cb counted_call (world_at 60) 0)
      as [_ H]; [reflexivity | reflexivity |].
    destruct H as (_ & _ & H1 & H2); [simpl; lia|]. split; [exact H1 | exact H2].
Defined.









(** ** One attempt of predict *)

Lemma predict_body_attempt remote instances parameters cb w :
  let out := predict_body remote instances parameters (cb, w) in
  ∃ block,
    trace out.2.2 = trace w ++ block ∧
    attempt_block (succeeded out.1) block ∧
    rpc_count out.2.2 = (rpc_count w + rpcs block)%nat ∧
    expected_exception out.2.1 = expected_exception cb ∧
    (expected_exception cb = Exception_ →
       match out.1 with
       | inr _ => state out.2.1 = CLOSED ∧ failure_count out.2.1 = 0
       | inl _ => failure_count out.2.1 = failure_count cb + Z.of_nat (rpcs block)
       end).
Proof.
  unfold predict_body; simpl.
  destruct (permits cb w) eqn:Hp.
  2:{ rewrite (call_rejected _ _ _ Hp). simpl.
      eexists. split; [reflexivity|]. split; [constructor|].
      simpl. repeat split; [lia | intros _; lia]. }
  rewrite (call_permitted _ _ _ Hp).
  set (cbm := if bool_decide (state cb = OPEN) then set_state HALF_OPEN cb else cb).
  assert (expected_exception cbm = expected_exception cb ∧
          failure_count cbm = failure_count cb) as [Hx Hc].
  { subst cbm. by case_bool_decide. }
  unfold call_guarded, _make_prediction_request, client_predict.
  destruct (reply remote _ _ _) as [e|response]; simpl.
  - destruct (isinstance _ (expected_exception cbm)) eqn:He; simpl.
    + unfold _on_failure; simpl. case_bool_decide; simpl.
      * eexists. rewrite <- !app_assoc. split; [reflexivity|]. split; [constructor|].
        simpl. repeat split; [lia | done | intros _; lia].
      * eexists. rewrite <- !app_assoc. split; [reflexivity|]. split; [constructor|].
        simpl. repeat split; [lia | done | intros _; lia].
    + eexists. rewrite <- !app_assoc. split; [reflexivity|]. split; [constructor|].
      simpl. repeat split; [lia | done |]. intros Hex. rewrite Hx, Hex in He. done.
  - eexists. rewrite <- !app_assoc. split; [reflexivity|]. split; [constructor|].
    simpl. repeat split; [lia | done].
Qed.


(** ** The retry loop around predict *)

Lemma rpcs_app tr1 tr2 : rpcs (tr1 ++ tr2) = (rpcs tr1 + rpcs tr2)%nat.
Proof.
  induction tr1 as [|ev tr1 IH]; [done|]. simpl. destruct ev; simpl; lia.
Qed.

Lemma join_attempts_cons n b rest :
  rest ≠ [] →
  join_attempts n (b :: rest) =
  b ++ EvSleep (Z.min 10 (1 * 2 ^ (n - 1))) :: join_attempts (n + 1) rest.
Proof. by destruct rest. Qed.

Lemma wait_exponential_predict n :
  1 ≤ n → wait_exponential predict_retry n = Z.min 10 (1 * 2 ^ (n - 1)).
Proof.
  intros Hn. unfold wait_exponential; simpl.
  assert (0 < 2 ^ (n - 1)) by (apply Z.pow_pos_nonneg; lia). lia.
Qed.

Lemma attempts_left_O policy n :
  attempts_left policy n = O ↔ stop_after_attempt policy n = true.
Proof.
  unfold attempts_left, stop_after_attempt. case_bool_decide; split; try done; lia.
Qed.

Lemma attempts_left_S policy n left :
  attempts_left policy n = S left → attempts_left policy (n + 1) = left.
Proof. unfold attempts_left. lia. Qed.

Lemma predict_retries_everything e : retry_if_exception_type predict_retry e = true.
Proof. unfold retry_if_exception_type; simpl. by rewrite orb_true_r. Qed.

Lemma predict_loop remote instances parameters left n cb w :
  1 ≤ n →
  let out :=
    retry_loop predict_retry St_sleep (predict_body remote instances parameters)
      left n (cb, w) in
  ∃ failed final,
    trace out.2.2 = trace w ++ join_attempts n (failed ++ [final]) ∧
    (length failed ≤ left)%nat ∧
    Forall (attempt_block false) failed ∧
    attempt_block (succeeded out.1) final ∧
    rpc_count out.2.2 = (rpc_count w + rpcs (join_attempts n (failed ++ [final])))%nat ∧
    expected_exception out.2.1 = expected_exception cb ∧
    (expected_exception cb = Exception_ →
       match out.1 with
       | inr _ => state out.2.1 = CLOSED ∧ failure_count out.2.1 = 0
       | inl _ =>
           failure_count out.2.1 =
           failure_count cb + Z.of_nat (rpcs (join_attempts n (failed ++ [final])))
       end).
Proof.
  revert n cb w. induction left as [|left IH]; intros n cb w Hn;
    pose proof (predict_body_attempt remote instances parameters cb w) as Hb;
    cbn [retry_loop];
    destruct (predict_body remote instances parameters (cb, w)) as [[e|r] [cb1 w1]];
    cbn [fst snd] in Hb; destruct Hb as (block & Ht & Hblk & Hrpc & Hx & Hc);
    try rewrite predict_retries_everything; cbn [negb reraise predict_retry fst snd].
  - exists [], block. repeat split; auto.
  - exists [], block. repeat split; auto; by apply Hc.
  - rewrite (wait_exponential_predict n Hn).
    change (St_sleep ?d (cb1, w1)) with (cb1, sleep d w1).
    destruct (IH (n + 1) cb1 (sleep (Z.min 10 (1 * 2 ^ (n - 1))) w1) ltac:(lia))
      as (failed & final & Ht' & Hlen & Hall & Hfin & Hrpc' & Hx' & Hc').
    exists (block :: failed), final.
    change ((block :: failed) ++ [final]) with (block :: (failed ++ [final])).
    rewrite join_attempts_cons by (by destruct failed).
    rewrite Ht', Hrpc', Hx'. cbn [trace rpc_count sleep]. rewrite Ht, Hrpc.
    rewrite !rpcs_app. cbn [rpcs]. rewrite <- !app_assoc.
    repeat split; auto; [simpl; lia | lia |].
    intros Hex. specialize (Hc Hex). rewrite Hx in Hc'. specialize (Hc' Hex).
    revert Hc'. destruct (retry_loop _ _ _ _ _ _).1; [lia|done].
  - exists [], block. repeat split; auto; try (simpl; lia); by apply Hc.
Qed.


Lemma predict_run remote instances parameters cb w :
  let out := predict remote instances parameters (cb, w) in
  ∃ failed final,
    trace out.2.2 = trace w ++ join_attempts 1 (failed ++ [final]) ∧
    (length failed ≤ 2)%nat ∧
    Forall (attempt_block false) failed ∧
    attempt_block (succeeded out.1) final ∧
    rpc_count out.2.2 = (rpc_count w + rpcs (join_attempts 1 (failed ++ [final])))%nat ∧
    expected_exception out.2.1 = expected_exception cb ∧
    (expected_exception cb = Exception_ →
       match out.1 with
       | inr _ => state out.2.1 = CLOSED ∧ failure_count out.2.1 = 0
       | inl _ =>
           failure_count out.2.1 =
           failure_count cb + Z.of_nat (rpcs (join_attempts 1 (failed ++ [final])))
       end).
Proof. apply (predict_loop remote instances parameters 2 1 cb w). lia. Qed.

Lemma rpcs_attempt ok block : attempt_block ok block → (rpcs block ≤ 1)%nat.
Proof. destruct 1; simpl; lia. Qed.

Lemma rpcs_join_attempts n blocks :
  Forall (λ b, ∃ ok, attempt_block ok b) blocks →
  (rpcs (join_attempts n blocks) ≤ length blocks)%nat.
Proof.
  intros H. revert n. induction H as [|b rest [ok Hb] _ IH]; intros n; [done|].
  pose proof (rpcs_attempt _ _ Hb). destruct rest as [|b' rest]; [simpl; lia|].
  rewrite join_attempts_cons by done. rewrite rpcs_app. cbn [rpcs].
  specialize (IH (n + 1)). simpl length in *. lia.
Qed.




(** While the breaker stays open the attempts are rejected without a remote
    invocation, and the retry layer still waits and tries again. *)
Lemma open_breaker_is_retried remote instances parameters cb w t :
  state cb = OPEN →
  last_failure_time cb = Some t →
  clock w + 3 - t < recovery_timeout cb →
  let out := predict remote instances parameters (cb, w) in
  succeeded out.1 = false ∧
  out.2.1 = cb ∧
  rpc_count out.2.2 = rpc_count w ∧
  trace out.2.2 =
    trace w ++ [LogPredictionFailed circuit_open_error; EvSleep 1;
                LogPredictionFailed circuit_open_error; EvSleep 2;
                LogPredictionFailed circuit_open_error].
Proof.
  intros Ho Ht Hel.
  assert (∀ w', clock w ≤ clock w' ≤ clock w + 3 →
            predict_body remote instances parameters (cb, w') =
            (inl circuit_open_error, (cb, emit (LogPredictionFailed circuit_open_error) w')))
    as Hrej.
  { intros w' Hw'. unfold predict_body. cbn [fst snd].
    rewrite call_rejected; [done|].
    unfold permits, _should_attempt_reset. rewrite Ho, Ht. simpl.
    case_bool_decide; [lia|done]. }
  intros out. subst out. unfold predict, Retrying_call.
  change (attempts_left predict_retry 1) with 2%nat. cbn [retry_loop].
  rewrite Hrej by lia. rewrite predict_retries_everything. cbn [negb].
  change (wait_exponential predict_retry 1) with 1.
  change (wait_exponential predict_retry (1 + 1)) with 2.
  change (St_sleep ?d (?c, ?x)) with (c, sleep d x).
  rewrite Hrej by (simpl; lia). rewrite predict_retries_everything. cbn [negb].
  change (St_sleep ?d (?c, ?x)) with (c, sleep d x).
  rewrite Hrej by (simpl; lia). rewrite predict_retries_everything. cbn [negb reraise].
  simpl. rewrite <- !app_assoc. done.
Qed.



(** The schedule on a remote service that never answers: three tries, with
    waits of 1 and 2 seconds. *)
Example predict_retry_schedule_boom :
  trace (predict (always_failing "boom") (Single []) None
           (PredictionClient_circuit_breaker, world_at 0)).2.2 =
  join_attempts 1
    [[EvRpc [[]] None; LogPredictionFailed (Raised PredictionError_ "Prediction failed: boom")];
     [EvRpc [[]] None; LogPredictionFailed (Raised PredictionError_ "Prediction failed: boom")];
     [EvRpc [[]] None; LogPredictionFailed (Raised PredictionError_ "Prediction failed: boom")]].
Proof. reflexivity. Qed.

(** ** What the caller receives when the attempts are exhausted *)

Section Exhaustion.
Context {S A : Type}.
Variable do_sleep : Z → S → S.
Variable fn : S → Result A * S.


(** With [reraise=True] the caller would receive the failure of an attempt
    as it was raised. *)
Lemma retry_loop_reraises policy left n s e :
  reraise policy = true →
  (retry_loop policy do_sleep fn left n s).1 = inl e →
  ∃ s', (fn s').1 = inl e.
Proof.
  intros Hre. revert n s. induction left as [|left IH]; intros n s;
    cbn [retry_loop]; destruct (fn s) as [[e1|r] s1] eqn:Hfn;
    try destruct (retry_if_exception_type policy e1);
    rewrite ?Hre; cbn [negb fst]; try discriminate;
    try (intros [= <-]; exists s; by rewrite Hfn).
  apply IH.
Qed.
End Exhaustion.


(** C5 (the code falls short of the claim). All three attempts fail with a
    [PredictionError]; the caller receives a [RetryError], not that
    [PredictionError]: the retry decorator does not set [reraise]. *)
Theorem predict_exhausted_raises_RetryError :
  let out :=
    predict (always_failing "boom") (Single [("x", VInt 1)]) None
      (PredictionClient_circuit_breaker, world_at 0) in
  out.1 = inl (RetryError (Raised PredictionError_ "Prediction failed: boom")) ∧
  rpc_count out.2.2 = 3%nat ∧
  isinstance (RetryError (Raised PredictionError_ "Prediction failed: boom"))
    PredictionError_ = false.
Proof. vm_compute. done. Qed.

(** ** Classification of remote failures *)

Lemma classify_class msg :
  class_of (classify msg) =
  if quota_signal msg then QuotaExceededError_
  else if unavailable_signal msg then ModelUnavailableError_
  else PredictionError_.
Proof.
  unfold classify, quota_signal, unavailable_signal.
  destruct (_ || _); [done|]. by destruct (_ || _).
Qed.

(** C7, as amended. Every failure of the remote service is classified by
    [_make_prediction_request] into exactly one class: [QuotaExceededError]
    if its text contains "quota" (in any letter case) or "429"; otherwise
    [ModelUnavailableError] if it contains "503" or "unavailable" (in any
    letter case); otherwise [PredictionError].  The classification is done
    on each attempt, inside the breaker and the retry layer: an attempt the
    breaker lets through hands the classified failure to the breaker, which
    hands it on unchanged to the retry layer. *)
Theorem failures_classified_per_attempt (remote : Remote) (instances : Instances)
    (parameters : option Dict) (cb : CircuitBreaker) (w : World) (e : Exn) :
  permits cb w = true →
  reply remote (rpc_count w) (as_list instances) (if_parameters parameters) = inl e →
  let classified := classify (str e) in
  class_of classified =
    (if quota_signal (str e) then QuotaExceededError_
     else if unavailable_signal (str e) then ModelUnavailableError_
     else PredictionError_) ∧
  (_make_prediction_request remote (as_list instances) parameters w).1 = inl classified ∧
  (CircuitBreaker_call cb
     (_make_prediction_request remote (as_list instances) parameters) w).1.1 = inl classified ∧
  (predict_body remote instances parameters (cb, w)).1 = inl classified.
Proof.
  intros Hp Hr classified. split; [apply classify_class|].
  assert ((_make_prediction_request remote (as_list instances) parameters w).1
          = inl classified) as Hreq.
  { unfold _make_prediction_request, client_predict. by rewrite Hr. }
  assert ((CircuitBreaker_call cb
     (_make_prediction_request remote (as_list instances) parameters) w).1.1 = inl classified)
    as Hcall.
  { rewrite (call_permitted _ _ _ Hp). unfold call_guarded.
    destruct (_make_prediction_request _ _ _ _) as [r w1]. simpl in Hreq. subst r.
    destruct (isinstance _ _); [|done]. by destruct (_on_failure _ _). }
  repeat split; [done | done |].
  unfold predict_body. cbn [fst snd]. fold (as_list instances).
  destruct (CircuitBreaker_call _ _ _) as [[r cb1] w1]. simpl in Hcall. by subst r.
Qed.

Lemma failures_classified_per_attempt_witness :
  (predict_body (always_failing "429 Too Many Requests") (Single []) None
     (PredictionClient_circuit_breaker, world_at 0)).1 =
  inl (Raised QuotaExceededError_ "Quota exceeded: 429 Too Many Requests").
Proof.
  apply (failures_classified_per_attempt (always_failing "429 Too Many Requests")
           (Single []) None PredictionClient_circuit_breaker (world_at 0)
           (Raised Exception_ "429 Too Many Requests")); reflexivity.
Defined.

(** C7 as stated fails on where the classification is done: on the first
    attempt the failure that leaves the breaker is already the classified
    [QuotaExceededError], not the failure the remote service raised, and two
    more attempts follow it. *)
Lemma classification_is_not_after_the_layers :
  let remote := always_failing "429 Too Many Requests" in
  let cb := PredictionClient_circuit_breaker in
  let first_attempt :=
    CircuitBreaker_call cb (_make_prediction_request remote [[]] None) (world_at 0) in
  reply remote 0%nat [[]] None = inl (Raised Exception_ "429 Too Many Requests") ∧
  first_attempt.1.1 =
    inl (Raised QuotaExceededError_ "Quota exceeded: 429 Too Many Requests") ∧
  first_attempt.1.1 ≠ inl (Raised Exception_ "429 Too Many Requests") ∧
  rpc_count first_attempt.2 = 1%nat ∧
  rpc_count (predict remote (Single []) None (cb, world_at 0)).2.2 = 3%nat.
Proof. vm_compute. repeat split; discriminate. Qed.


(** ** predict_batch *)

Lemma range_len_bounds (n : nat) (bs : Z) :
  1 ≤ bs →
  let m := range_len 0 (Z.of_nat n) bs in
  let b := Z.to_nat bs in
  (n ≤ m * b)%nat ∧ (n = O → m = O) ∧ (n ≠ O → (1 ≤ m)%nat ∧ ((m - 1) * b < n)%nat).
Proof.
  intros Hbs m b. subst m. unfold range_len.
  rewrite bool_decide_true by lia.
  case_bool_decide as Hn.
  - replace (Z.of_nat n - 0 - 1) with (Z.of_nat n - 1) by lia.
    pose proof (Z.div_mod (Z.of_nat n - 1) bs ltac:(lia)) as Hdm.
    pose proof (Z.mod_pos_bound (Z.of_nat n - 1) bs ltac:(lia)) as Hmod.
    assert (0 ≤ (Z.of_nat n - 1) / bs) as Hq by (apply Z.div_pos; lia).
    set (q := (Z.of_nat n - 1) / bs) in *.
    assert (Z.to_nat (q + 1) = S (Z.to_nat q)) as -> by lia.
    subst b. split; [|split; [lia|]].
    + apply Nat2Z.inj_le. rewrite Nat2Z.inj_mul, !Z2Nat.id by lia. nia.
    + intros _. split; [lia|]. apply Nat2Z.inj_lt.
      replace (S (Z.to_nat q) - 1)%nat with (Z.to_nat q) by lia.
      rewrite Nat2Z.inj_mul, !Z2Nat.id by lia. nia.
  - split; [lia|]. split; [done|]. lia.
Qed.

Lemma batches_eq (instances : list Dict) (bs : Z) :
  1 ≤ bs →
  batches instances bs =
  (λ k : nat, take (Z.to_nat bs) (drop (k * Z.to_nat bs) instances))
    <$> seq 0 (range_len 0 (Z.of_nat (length instances)) bs).
Proof.
  intros Hbs. unfold batches, range. rewrite bool_decide_false by lia.
  rewrite <- list_fmap_compose. apply list_fmap_ext. intros _ k _. simpl.
  unfold slice. f_equal; [lia|]. f_equal. lia.
Qed.

Lemma concat_windows {A} (l : list A) (b m : nat) :
  concat ((λ k : nat, take b (drop (k * b) l)) <$> seq 0 m) = take (m * b) l.
Proof.
  induction m as [|m IH]; [done|].
  rewrite seq_S, fmap_app, concat_app, IH. simpl. rewrite app_nil_r.
  rewrite take_take_drop. f_equal. lia.
Qed.

Lemma batches_cover (instances : list Dict) (bs : Z) :
  1 ≤ bs →
  let chunks := batches instances bs in
  concat chunks = instances ∧
  Forall (λ b, 1 ≤ Z.of_nat (length b) ≤ bs) chunks ∧
  (∀ k b, chunks !! k = Some b → (S k < length chunks)%nat → Z.of_nat (length b) = bs).
Proof.
  intros Hbs chunks. subst chunks. rewrite batches_eq by done.
  destruct (range_len_bounds (length instances) bs Hbs) as (Hge & H0 & Hpos).
  set (m := range_len 0 (Z.of_nat (length instances)) bs) in *.
  set (b := Z.to_nat bs) in *.
  split; [|split].
  - rewrite concat_windows. by apply take_ge.
  - apply Forall_fmap, Forall_forall. intros k Hk.
    apply elem_of_seq in Hk. simpl.
    rewrite length_take, length_drop.
    destruct (decide (length instances = O)) as [Hz|Hnz]; [specialize (H0 Hz); lia|].
    destruct (Hpos Hnz) as [_ Hlt].
    assert (k * b ≤ (m - 1) * b)%nat by (apply Nat.mul_le_mono_r; lia). lia.
  - intros k c Hk Hlen. rewrite length_fmap, length_seq in Hlen.
    rewrite list_lookup_fmap in Hk.
    rewrite lookup_seq_lt in Hk by lia. simpl in Hk. injection Hk as <-.
    rewrite length_take, length_drop.
    destruct (decide (length instances = O)) as [Hz|Hnz]; [specialize (H0 Hz); lia|].
    destruct (Hpos Hnz) as [_ Hlt].
    assert ((k + 1) * b ≤ (m - 1) * b)%nat by (apply Nat.mul_le_mono_r; lia). lia.
Qed.

Lemma batch_loop_sequential self_predict (instances : list Dict) (bs : Z) parameters
    (n k : nat) (acc : list PredictionResponse) (st : St) :
  1 ≤ bs →
  let total := (Z.of_nat (length instances) - 1) / bs + 1 in
  let indices := (λ j : nat, 0 + Z.of_nat j * bs) <$> seq k n in
  ∃ out st2,
    predict_batch_loop self_predict instances bs parameters indices acc st =
      (match out with
       | inl e => inl e
       | inr responses => inr (acc ++ responses)
       end, st2) ∧
    sequential self_predict parameters total (Z.of_nat k)
      ((λ i, slice instances i (i + bs)) <$> indices) st (out, st2) ∧
    match out with
    | inl _ => True
    | inr responses => length responses = n
    end.
Proof.
  intros Hbs total. revert k acc st. induction n as [|n IH]; intros k acc st indices.
  - exists (inr []), st. subst indices. simpl. rewrite app_nil_r.
    repeat split. constructor.
  - subst indices. cbn [seq]. rewrite !fmap_cons. cbn [predict_batch_loop].
    destruct (self_predict _ parameters st) as [[e|response] st1] eqn:Hp.
    + exists (inl e), st1. repeat split. by constructor.
    + replace ((0 + Z.of_nat k * bs) / bs + 1) with (Z.of_nat k + 1).
      2:{ rewrite Z.add_0_l, Z.div_mul by lia. done. }
      destruct (IH (S k) (acc ++ [response])
                  (st1.1, emit (LogProcessedBatch (Z.of_nat k + 1) total) st1.2))
        as (out & st2 & Hloop & Hseq & Hlen).
      exists (match out with inl e => inl e | inr rs => inr (response :: rs) end), st2.
      split; [|split].
      * fold total. rewrite Hloop. destruct out; [done|]. by rewrite <- app_assoc.
      * rewrite Nat2Z.inj_succ in Hseq. unfold Z.succ in Hseq.
        eapply sequential_next; [exact Hp | exact Hseq].
      * destruct out; [done|]. simpl. by rewrite Hlen.
Qed.

(** C8. For a batch size of at least 1, [predict_batch] cuts the instances
    into consecutive chunks of at most [batch_size], all but the last of
    exactly [batch_size]; it calls [predict] on the chunks one after the
    other in their order; it returns one response per chunk in that order;
    and the first chunk that fails ends the loop with its failure, no later
    chunk being sent. *)
Theorem predict_batch_sequential
    (self_predict : list Dict → option Dict → St → Result PredictionResponse * St)
    (instances : list Dict) (batch_size : Z) (parameters : option Dict) (st : St) :
  1 ≤ batch_size →
  let chunks := batches instances batch_size in
  let total := (Z.of_nat (length instances) - 1) / batch_size + 1 in
  let out := predict_batch_with self_predict instances batch_size parameters st in
  concat chunks = instances ∧
  Forall (λ b, 1 ≤ Z.of_nat (length b) ≤ batch_size) chunks ∧
  (∀ k b, chunks !! k = Some b → (S k < length chunks)%nat →
          Z.of_nat (length b) = batch_size) ∧
  sequential self_predict parameters total 0 chunks st out ∧
  match out.1 with
  | inl _ => True
  | inr responses => length responses = length chunks
  end.
Proof.
  intros Hbs chunks total out.
  destruct (batches_cover instances batch_size Hbs) as (Hcat & Hlen & Hfull).
  repeat split; [done | done | done | |].
  - subst out chunks. unfold predict_batch_with, batches, range.
    rewrite bool_decide_false by lia.
    destruct (batch_loop_sequential self_predict instances batch_size parameters
                (range_len 0 (Z.of_nat (length instances)) batch_size) 0 [] st Hbs)
      as (o & st2 & Hloop & Hseq & _).
    rewrite Hloop. destruct o; exact Hseq.
  - subst out chunks. unfold predict_batch_with, batches, range.
    rewrite bool_decide_false by lia.
    destruct (batch_loop_sequential self_predict instances batch_size parameters
                (range_len 0 (Z.of_nat (length instances)) batch_size) 0 [] st Hbs)
      as (o & st2 & Hloop & _ & Hn).
    rewrite Hloop. destruct o; [done|]. simpl.
    by rewrite Hn, length_fmap, length_fmap, length_seq.
Qed.


Lemma predict_batch_sequential_witness :
  let chunks := batches hundred 32 in
  let out := predict_batch_with (recording_predict 1) hundred 32 None
               (PredictionClient_circuit_breaker, world_at 0) in
  concat chunks = hundred ∧
  Forall (λ b, 1 ≤ Z.of_nat (length b) ≤ 32) chunks ∧
  (∀ k b, chunks !! k = Some b → (S k < length chunks)%nat → Z.of_nat (length b) = 32) ∧
  sequential (recording_predict 1) None ((Z.of_nat (length hundred) - 1) / 32 + 1) 0
    chunks (PredictionClient_circuit_breaker, world_at 0) out ∧
  match out.1 with
  | inl _ => True
  | inr responses => length responses = length chunks
  end.
Proof.
  apply (predict_batch_sequential (recording_predict 1) hundred 32 None
           (PredictionClient_circuit_breaker, world_at 0)).
  lia.
Defined.

(** 100 instances with batch size 32: four chunks, of sizes 32, 32, 32, 4. *)
Example hundred_by_32 : length <$> batches hundred 32 = [32; 32; 32; 4]%nat.
Proof. reflexivity. Qed.

(** When every chunk is answered, [predict] is called on the four chunks in
    order and four responses come back, one per chunk. *)
Example hundred_by_32_all_answered :
  let out := predict_batch_with (recording_predict 99) hundred 32 None
               (PredictionClient_circuit_breaker, world_at 0) in
  rpc_batches (trace out.2.2) = batches hundred 32 ∧
  match out.1 with
  | inl _ => False
  | inr responses => predictions <$> responses = batches hundred 32
  end.
Proof. vm_compute. done. Qed.

(** When the second call fails, the failure is the outcome and the third
    and fourth chunks are never sent. *)
Example hundred_by_32_second_fails :
  let out := predict_batch_with (recording_predict 1) hundred 32 None
               (PredictionClient_circuit_breaker, world_at 0) in
  out.1 = inl (Raised PredictionError_ "boom") ∧
  rpc_batches (trace out.2.2) = take 2 (batches hundred 32).
Proof. vm_compute. done. Qed.

(** The same with the client's own [predict]: the remote service answers
    the first chunk only; the second chunk is tried three times and the
    third and fourth chunks are never sent. *)
Example hundred_by_32_remote_fails :
  let out := predict_batch (answering_first 1) hundred 32 None
               (PredictionClient_circuit_breaker, world_at 0) in
  succeeded out.1 = false ∧
  ∃ c1 c2, take 2 (batches hundred 32) = [c1; c2] ∧
           rpc_batches (trace out.2.2) = [c1; c2; c2; c2].
Proof. vm_compute. split; [done|]. eexists _, _. split; reflexivity. Qed.

(** ** predict_batch_parallel *)

Section Gather.
Context {A : Type}.
Variable tasks : list (Result A).

Local Abbreviation finish := (finish_task tasks).

Lemma finish_length slots completion :
  length (foldl finish slots completion) = length slots.
Proof.
  revert slots. induction completion as [|j rest IH]; intros slots; [done|].
  simpl. rewrite IH. unfold finish_task. destruct (tasks !! j); [|done].
  by rewrite length_insert.
Qed.

Lemma finish_other slots completion (i : nat) :
  i ∉ completion → foldl finish slots completion !! i = slots !! i.
Proof.
  revert slots. induction completion as [|j rest IH]; intros slots Hi; [done|].
  apply not_elem_of_cons in Hi as [Hne Hi]. simpl. rewrite IH by done.
  unfold finish_task. destruct (tasks !! j); [|done]. by rewrite list_lookup_insert_ne.
Qed.

Lemma finish_done slots completion (i : nat) outcome :
  length slots = length tasks →
  tasks !! i = Some outcome →
  i ∈ completion →
  foldl finish slots completion !! i = Some (Some outcome).
Proof.
  revert slots. induction completion as [|j rest IH]; intros slots Hlen Ht Hi.
  { by apply elem_of_nil in Hi. }
  simpl. destruct (decide (i ∈ rest)) as [Hin|Hnotin].
  - apply IH; [|done|done]. unfold finish_task. destruct (tasks !! j); [|done].
    by rewrite length_insert.
  - apply elem_of_cons in Hi as [->|]; [|done].
    rewrite finish_other by done. unfold finish_task. rewrite Ht.
    apply list_lookup_insert_eq. rewrite Hlen. by eapply lookup_lt_Some.
Qed.

Lemma gather_all_done completion :
  completion ≡ₚ seq 0 (length tasks) →
  gather_return_exceptions tasks completion = Some tasks.
Proof.
  intros Hperm. unfold gather_return_exceptions.
  apply mapM_Some. apply Forall2_same_length_lookup. split.
  { by rewrite finish_length, length_replicate. }
  intros i slot outcome Hslot Hout.
  rewrite (finish_done _ _ i outcome) in Hslot.
  - by injection Hslot as <-.
  - apply length_replicate.
  - done.
  - rewrite Hperm. apply elem_of_seq. apply lookup_lt_Some in Hout. lia.
Qed.
End Gather.

Lemma collect_results (results : list (Result (list Dict))) (acc : list (list Dict)) :
  foldl (λ (acc : list (list Dict)) (result : Result (list Dict)),
           match result with
           | inl _ => acc ++ [[]]
           | inr r => acc ++ [r]
           end) acc results =
  acc ++ ((λ result : Result (list Dict),
             match result with
             | inl _ => []
             | inr r => r
             end) <$> results).
Proof.
  revert acc. induction results as [|r results IH]; intros acc; simpl.
  - by rewrite app_nil_r.
  - rewrite IH. destruct r; by rewrite <- app_assoc.
Qed.

(** C9. Whatever the order in which the concurrent sub-batch calls finish,
    [predict_batch_parallel] returns normally, with one slot per input
    sub-batch; slot [i] holds the predictions of sub-batch [i], or the empty
    list if the call for sub-batch [i] failed. *)
Theorem parallel_slots_follow_input (endpoint : nat → Endpoint)
    (batch_instances : list (list Dict)) (parameters : option Dict)
    (completion : list nat) :
  completion ≡ₚ seq 0 (length batch_instances) →
  ∃ results,
    predict_batch_parallel endpoint batch_instances parameters completion
      = Some (inr results) ∧
    length results = length batch_instances ∧
    ∀ (i : nat) instances,
      batch_instances !! i = Some instances →
      results !! i =
        Some (match endpoint i instances parameters with
              | inl _ => []
              | inr predictions => predictions
              end).
Proof.
  intros Hperm. unfold predict_batch_parallel.
  rewrite gather_all_done by (by rewrite length_imap).
  simpl. rewrite collect_results. simpl.
  eexists. split; [reflexivity|]. split.
  - by rewrite length_fmap, length_imap.
  - intros i instances Hi.
    rewrite list_lookup_fmap, list_lookup_imap, Hi. done.
Qed.

Lemma parallel_slots_follow_input_witness :
  let endpoint : nat → Endpoint := λ i instances _,
    if bool_decide (i = 1%nat) then inl (Raised Exception_ "boom") else inr instances in
  let a : Dict := [("x", VStr "a")] in
  let b : Dict := [("x", VStr "b")] in
  let c : Dict := [("x", VStr "c")] in
  ∃ results,
    predict_batch_parallel endpoint [[a]; [b]; [c]] None [2; 0; 1]%nat = Some (inr results) ∧
    length results = 3%nat ∧
    ∀ (i : nat) instances,
      [[a]; [b]; [c]] !! i = Some instances →
      results !! i =
        Some (match endpoint i instances None with
              | inl _ => []
              | inr predictions => predictions
              end).
Proof.
  intros endpoint a b c.
  apply (parallel_slots_follow_input endpoint [[a]; [b]; [c]] None [2; 0; 1]%nat).
  simpl. apply (Permutation_cons_append [0; 1]%nat 2%nat).
Defined.

(** Sub-batch 2 of 3 fails and finishes first: [resultA, [], resultC]. *)
Example parallel_middle_fails :
  let endpoint : nat → Endpoint := λ i instances _,
    if bool_decide (i = 1%nat) then inl (Raised Exception_ "boom") else inr instances in
  let a : Dict := [("x", VStr "a")] in
  let b : Dict := [("x", VStr "b")] in
  let c : Dict := [("x", VStr "c")] in
  predict_batch_parallel endpoint [[a]; [b]; [c]] None [1; 2; 0]%nat
  = Some (inr [[a]; []; [c]]).
Proof. reflexivity. Qed.

(** * Further properties *)

(** ** The circuit breaker *)

Section BreakerCounter.
Context {A : Type}.
Implicit Types (cb : CircuitBreaker) (func : World → Result A * World) (w : World).

Lemma call_unexpected cb func w e w1 :
  permits cb w = true → func w = (inl e, w1) →
  isinstance e (expected_exception cb) = false →
  CircuitBreaker_call cb func w =
  (inl e, if bool_decide (state cb = OPEN) then set_state HALF_OPEN cb else cb, w1).
Proof.
  intros Hp Hf He. rewrite (call_permitted _ _ _ Hp). unfold call_guarded. rewrite Hf.
  case_bool_decide; simpl; by rewrite He.
Qed.

Lemma below_threshold_step cb func w :
  0 < failure_threshold cb →
  below_threshold cb → below_threshold (step cb func w).
Proof.
  intros Hpos [Hc Hs]. destruct (permits cb w) eqn:Hp.
  2:{ unfold step. by rewrite (call_rejected _ _ _ Hp). }
  destruct (func w) as [[e|result] w1] eqn:Hf.
  2:{ unfold step. rewrite (call_success _ _ _ _ _ Hp Hf). by split. }
  destruct (isinstance e (expected_exception cb)) eqn:He.
  - destruct (call_failure _ _ _ _ _ Hp Hf He) as (_ & H1 & _ & H2 & H3 & _).
    split; [lia|]. rewrite H1, H2, H3.
    case_bool_decide; [done|]. case_bool_decide; [done|]. lia.
  - unfold step. rewrite (call_unexpected _ _ _ _ _ Hp Hf He).
    case_bool_decide; simpl; [by split|by split].
Qed.

Lemma reachable_below_threshold cb0 cb :
  0 < failure_threshold cb0 →
  below_threshold cb0 → reachable (A:=A) cb0 cb → below_threshold cb.
Proof.
  intros Hpos H0 Hr.
  induction Hr as [|cb func w Hr IH|cb w Hr IH Ho Hreset]; [done| |].
  - apply below_threshold_step; [|done].
    destruct (reachable_config _ _ Hr) as (-> & _). done.
  - destruct IH as [Hc _]. by split.
Qed.
End BreakerCounter.

(** X1. In every state reachable from a breaker built with a positive
    threshold, the failure counter is not negative, and the breaker is
    Closed exactly when the counter is below the threshold. *)
Theorem closed_iff_below_threshold {A : Type}
    (threshold timeout : Z) (expected : ExnClass) (cb : CircuitBreaker) :
  0 < threshold →
  reachable (A:=A) (CircuitBreaker_init threshold timeout expected) cb →
  0 ≤ failure_count cb ∧ (state cb = CLOSED ↔ failure_count cb < threshold).
Proof.
  intros Hpos Hr.
  destruct (reachable_config _ _ Hr) as (Hth & _). simpl in Hth.
  destruct (reachable_below_threshold (A:=A)
              (CircuitBreaker_init threshold timeout expected) cb)
    as [Hc Hs]; [done | by split | done |].
  assert (tripped cb) as Htr.
  { eapply reachable_tripped; [|exact Hr]. by intros []. }
  split; [done|]. split; [intros H; specialize (Hs H); lia|].
  intros Hlt. destruct (decide (state cb = CLOSED)) as [|Hne]; [done|].
  destruct (Htr Hne). lia.
Qed.

Lemma closed_iff_below_threshold_witness :
  let cb := step (step (CircuitBreaker_init 2 60 Exception_) (failing_call 0) (world_at 0))
              (failing_call 0) (world_at 1) in
  0 ≤ failure_count cb ∧ (state cb = CLOSED ↔ failure_count cb < 2).
Proof.
  intros cb.
  apply (closed_iff_below_threshold (A:=unit) 2 60 Exception_ cb); [lia|].
  apply reachable_call, reachable_call, reachable_init.
Defined.

(** X2. The breaker does not open early: from a Closed breaker, consecutive
    failures that keep the counter below the threshold leave it Closed, and
    the next call is let through whatever the time. *)
Theorem fewer_failures_keep_closed {A : Type}
    (cb0 : CircuitBreaker) (times : list Z) (cb : CircuitBreaker) (w : World) :
  state cb0 = CLOSED →
  failures (A:=A) cb0 times cb →
  failure_count cb0 + Z.of_nat (length times) < failure_threshold cb0 →
  state cb = CLOSED ∧
  failure_count cb ≤ failure_count cb0 + Z.of_nat (length times) ∧
  permits cb w = true.
Proof.
  intros Hcl Hf Hlt.
  assert (state cb = CLOSED ∧
          failure_count cb ≤ failure_count cb0 + Z.of_nat (length times) ∧
          failure_threshold cb = failure_threshold cb0) as (Hs & Hc & _).
  { induction Hf as [|times cb func w' e w1 Hf IH Hp Hfn]; [repeat split; [done|lia]|].
    rewrite length_app in Hlt. simpl in Hlt.
    destruct IH as (Hs & Hc & Hth); [lia|].
    rewrite length_app. simpl.
    destruct (isinstance e (expected_exception cb)) eqn:He.
    - destruct (call_failure _ _ _ _ _ Hp Hfn He) as (_ & H1 & _ & H2 & H3 & _).
      rewrite H1, H2, H3, Hs. rewrite bool_decide_false by lia.
      rewrite bool_decide_false by done. repeat split; [lia | done].
    - unfold step. rewrite (call_unexpected _ _ _ _ _ Hp Hfn He).
      rewrite bool_decide_false by congruence. simpl. repeat split; [done | lia | done]. }
  repeat split; [done | done |]. unfold permits. by rewrite Hs.
Qed.

Lemma fewer_failures_keep_closed_witness :
  let cb0 := CircuitBreaker_init 3 60 Exception_ in
  let cb := step (step cb0 (failing_call 1) (world_at 10)) (failing_call 1) (world_at 20) in
  state cb = CLOSED ∧ failure_count cb ≤ 0 + 2 ∧ permits cb (world_at 21) = true.
Proof.
  intros cb0 cb.
  apply (fewer_failures_keep_closed (A:=unit) cb0 [11; 21] cb (world_at 21)).
  - reflexivity.
  - apply (failures_snoc cb0 [11] _ (failing_call 1) (world_at 20)
             (Raised Exception_ "boom") (failing_call 1 (world_at 20)).2);
      [|reflexivity|reflexivity].
    apply (failures_snoc cb0 [] _ (failing_call 1) (world_at 10)
             (Raised Exception_ "boom") (failing_call 1 (world_at 10)).2);
      [|reflexivity|reflexivity].
    apply failures_nil.
  - simpl. lia.
Defined.

(** X3. A failure that is not an instance of [expected_exception] is raised
    to the caller but not counted: the counter and the failure time stay as
    they were.  If it happens on a trial call the breaker is left HalfOpen;
    either way the breaker is not Open afterwards, so the next call is let
    through whatever the time. *)
Theorem unexpected_failure_is_not_counted {A : Type}
    (cb : CircuitBreaker) (func : World → Result A * World) (w : World)
    (e : Exn) (w1 : World) (w' : World) :
  permits cb w = true →
  func w = (inl e, w1) →
  isinstance e (expected_exception cb) = false →
  let cb' := step cb func w in
  CircuitBreaker_call cb func w = (inl e, cb', w1) ∧
  failure_count cb' = failure_count cb ∧
  last_failure_time cb' = last_failure_time cb ∧
  state cb' = (if bool_decide (state cb = OPEN) then HALF_OPEN else state cb) ∧
  permits cb' w' = true.
Proof.
  intros Hp Hf He cb'. subst cb'. unfold step.
  rewrite (call_unexpected _ _ _ _ _ Hp Hf He). simpl.
  case_bool_decide as Ho; simpl; repeat split; try done.
  unfold permits. by rewrite bool_decide_false.
Qed.

Lemma unexpected_failure_is_not_counted_witness :
  let cb0 := CircuitBreaker_init 1 60 PredictionError_ in
  let opened : World → Result unit * World :=
    λ w, (inl (Raised PredictionError_ "down"), w) in
  let cb := step cb0 opened (world_at 0) in
  let cb' := step cb (failing_call 0) (world_at 60) in
  state cb = OPEN ∧
  CircuitBreaker_call cb (failing_call 0) (world_at 60)
    = (inl (Raised Exception_ "boom"), cb', (failing_call 0 (world_at 60)).2) ∧
  failure_count cb' = failure_count cb ∧
  last_failure_time cb' = last_failure_time cb ∧
  state cb' = HALF_OPEN ∧
  permits cb' (world_at 61) = true.
Proof.
  intros cb0 opened cb cb'. split; [reflexivity|].
  apply (unexpected_failure_is_not_counted cb (failing_call 0) (world_at 60)
           (Raised Exception_ "boom") (failing_call 0 (world_at 60)).2 (world_at 61));
    reflexivity.
Defined.

(** ** What a predict call does to the world *)

Lemma rpc_calls_app tr1 tr2 : rpc_calls (tr1 ++ tr2) = rpc_calls tr1 ++ rpc_calls tr2.
Proof.
  induction tr1 as [|ev tr1 IH]; [done|]. simpl. destruct ev; simpl; by rewrite ?IH.
Qed.

Lemma sleeps_app tr1 tr2 : sleeps (tr1 ++ tr2) = sleeps tr1 ++ sleeps tr2.
Proof.
  induction tr1 as [|ev tr1 IH]; [done|]. simpl. destruct ev; simpl; by rewrite ?IH.
Qed.

Lemma remote_time_add remote k a b :
  remote_time remote k (a + b) = remote_time remote k a + remote_time remote (k + a) b.
Proof.
  revert k. induction a as [|a IH]; intros k; simpl.
  - by rewrite Nat.add_0_r.
  - rewrite IH. replace (S k + a)%nat with (k + S a)%nat by lia. lia.
Qed.

Lemma predict_body_account remote instances parameters cb w :
  let args := (as_list instances, if_parameters parameters) in
  let out := predict_body remote instances parameters (cb, w) in
  ∃ block,
    trace out.2.2 = trace w ++ block ∧
    sleeps block = [] ∧
    rpc_calls block = replicate (rpcs block) args ∧
    rpc_count out.2.2 = (rpc_count w + rpcs block)%nat ∧
    clock out.2.2 = clock w + remote_time remote (rpc_count w) (rpcs block) ∧
    (∀ r, out.1 = inr r →
       rpcs block = 1%nat ∧
       ∃ raw, reply remote (rpc_count w) args.1 args.2 = inr raw ∧
              r = response_of raw (took remote (rpc_count w))).
Proof.
  unfold predict_body; simpl. fold (as_list instances).
  destruct (permits cb w) eqn:Hp.
  2:{ rewrite (call_rejected _ _ _ Hp). simpl.
      eexists. split; [reflexivity|]. simpl.
      split; [done|]. split; [done|]. split; [lia|]. split; [lia|]. done. }
  rewrite (call_permitted _ _ _ Hp).
  set (cbm := if bool_decide (state cb = OPEN) then set_state HALF_OPEN cb else cb).
  unfold call_guarded, _make_prediction_request, client_predict.
  destruct (reply remote _ _ _) as [e|response] eqn:Hr; simpl.
  - destruct (isinstance _ (expected_exception cbm)); simpl.
    + unfold _on_failure; simpl. case_bool_decide; simpl;
        (eexists; rewrite <- !app_assoc; split; [reflexivity|]; simpl;
         split; [done|]; split; [done|]; split; [lia|]; split; [lia|]; done).
    + eexists. rewrite <- !app_assoc. split; [reflexivity|]. simpl.
      split; [done|]. split; [done|]. split; [lia|]. split; [lia|]. done.
  - eexists. rewrite <- !app_assoc. split; [reflexivity|]. simpl.
    split; [done|]. split; [done|]. split; [lia|]. split; [lia|].
    intros r' [= <-]. split; [done|]. exists response. split; [done|].
    unfold response_of. f_equal. lia.
Qed.

Lemma predict_loop_account remote instances parameters left n cb w :
  1 ≤ n →
  let args := (as_list instances, if_parameters parameters) in
  let out :=
    retry_loop predict_retry St_sleep (predict_body remote instances parameters)
      left n (cb, w) in
  ∃ delta (m : nat),
    trace out.2.2 = trace w ++ delta ∧
    (m ≤ left)%nat ∧
    sleeps delta = (λ i : nat, Z.min 10 (1 * 2 ^ (n + Z.of_nat i - 1))) <$> seq 0 m ∧
    rpc_calls delta = replicate (rpcs delta) args ∧
    rpc_count out.2.2 = (rpc_count w + rpcs delta)%nat ∧
    clock out.2.2 =
      clock w + foldr Z.add 0 (sleeps delta) + remote_time remote (rpc_count w) (rpcs delta) ∧
    (∀ r, out.1 = inr r →
       ∃ k raw, rpc_count out.2.2 = S k ∧
                reply remote k args.1 args.2 = inr raw ∧
                r = response_of raw (took remote k)).
Proof.
  intros Hn args. revert n Hn cb w. induction left as [|left IH]; intros n Hn cb w;
    pose proof (predict_body_account remote instances parameters cb w) as Hb;
    cbn [retry_loop];
    destruct (predict_body remote instances parameters (cb, w)) as [[e|r] [cb1 w1]];
    cbn [fst snd] in Hb; destruct Hb as (block & Ht & Hsl & Hcalls & Hrpc & Hclk & Hresp);
    try rewrite predict_retries_everything; cbn [negb reraise predict_retry fst snd].
  - exists block, O. rewrite Hsl. simpl.
    split; [done|]. split; [lia|]. split; [done|]. split; [done|]. split; [done|].
    split; [lia|]. done.
  - exists block, O. rewrite Hsl. simpl.
    split; [done|]. split; [lia|]. split; [done|]. split; [done|]. split; [done|].
    split; [lia|].
    intros r' [= <-]. destruct (Hresp r eq_refl) as (H1 & raw & Hraw & ->).
    exists (rpc_count w), raw. split; [lia|]. by split.
  - rewrite (wait_exponential_predict n Hn).
    change (St_sleep ?d (cb1, w1)) with (cb1, sleep d w1).
    destruct (IH (n + 1) ltac:(lia) cb1 (sleep (Z.min 10 (1 * 2 ^ (n - 1))) w1))
      as (delta & m & Ht' & Hm & Hsl' & Hcalls' & Hrpc' & Hclk' & Hresp').
    exists (block ++ EvSleep (Z.min 10 (1 * 2 ^ (n - 1))) :: delta), (S m).
    rewrite Ht', Hrpc', Hclk'. cbn [trace rpc_count clock sleep]. rewrite Ht, Hrpc, Hclk.
    rewrite !sleeps_app, !rpc_calls_app, !rpcs_app, Hsl. cbn [sleeps rpc_calls rpcs app].
    rewrite Hsl', Hcalls', Hcalls, <- replicate_add, remote_time_add, <- !app_assoc.
    split; [done|]. split; [lia|]. split.
    { cbn [seq]. rewrite fmap_cons. f_equal; [do 3 f_equal; lia|].
      rewrite <- fmap_S_seq, <- list_fmap_compose. apply list_fmap_ext.
      intros _ i _. simpl. do 3 f_equal. lia. }
    split; [done|]. split; [lia|]. split; [simpl; lia|].
    intros r Hr. destruct (Hresp' r Hr) as (k & raw & Hk & Hraw & ->).
    exists k, raw. rewrite Hrpc' in Hk. cbn [rpc_count sleep] in Hk. rewrite Hrpc in Hk.
    split; [lia|]. by split.
  - exists block, O. rewrite Hsl. simpl.
    split; [done|]. split; [lia|]. split; [done|]. split; [done|]. split; [done|].
    split; [lia|].
    intros r' [= <-]. destruct (Hresp r eq_refl) as (H1 & raw & Hraw & ->).
    exists (rpc_count w), raw. split; [lia|]. by split.
Qed.

Lemma predict_account remote instances parameters cb w :
  let args := (as_list instances, if_parameters parameters) in
  let out := predict remote instances parameters (cb, w) in
  ∃ delta (m : nat),
    trace out.2.2 = trace w ++ delta ∧
    (m ≤ 2)%nat ∧
    sleeps delta = take m [1; 2] ∧
    rpc_calls delta = replicate (rpcs delta) args ∧
    rpc_count out.2.2 = (rpc_count w + rpcs delta)%nat ∧
    clock out.2.2 =
      clock w + foldr Z.add 0 (sleeps delta) + remote_time remote (rpc_count w) (rpcs delta) ∧
    (∀ r, out.1 = inr r →
       ∃ k raw, rpc_count out.2.2 = S k ∧
                reply remote k args.1 args.2 = inr raw ∧
                r = response_of raw (took remote k)).
Proof.
  intros args out.
  destruct (predict_loop_account remote instances parameters 2 1 cb w ltac:(lia))
    as (delta & m & Ht & Hm & Hsl & Hrest).
  exists delta, m. split; [done|]. split; [done|]. split; [|done].
  rewrite Hsl. destruct m as [|[|[|m]]]; [done | done | done | lia].
Qed.

(** X4. When [predict] returns a response, that response is built from the
    answer of the last remote invocation of the call, which was made with
    the normalized instance list and the non-empty parameters: the
    predictions are the answer's predictions in the same order, the model id
    is passed through, missing metadata becomes the empty dict, and the
    latency is the duration of that one invocation in milliseconds. *)
Theorem successful_predict_returns_last_answer (remote : Remote) (instances : Instances)
    (parameters : option Dict) (st : St) (r : PredictionResponse) :
  let out := predict remote instances parameters st in
  out.1 = inr r →
  ∃ k raw,
    rpc_count out.2.2 = S k ∧
    reply remote k (as_list instances) (if_parameters parameters) = inr raw ∧
    predictions r = raw_predictions raw ∧
    deployed_model_id r = raw_deployed_model_id raw ∧
    metadata r = default [] (raw_metadata raw) ∧
    latency_ms r = took remote k * 1000.
Proof.
  intros out Hr. destruct st as [cb w].
  destruct (predict_account remote instances parameters cb w)
    as (_ & _ & _ & _ & _ & _ & _ & _ & Hresp).
  destruct (Hresp r Hr) as (k & raw & Hk & Hraw & ->).
  exists k, raw. by repeat split.
Qed.

Lemma successful_predict_returns_last_answer_witness :
  let out := predict (answering_first 1) (Single [("x", VInt 1)]) (Some [])
               (PredictionClient_circuit_breaker, world_at 0) in
  ∃ k raw,
    rpc_count out.2.2 = S k ∧
    reply (answering_first 1) k [[("x", VInt 1)]] None = inr raw ∧
    predictions {| predictions := []; deployed_model_id := "model";
                   metadata := []; latency_ms := 0 |} = raw_predictions raw ∧
    "model" = raw_deployed_model_id raw ∧
    [] = default [] (raw_metadata raw) ∧
    0 = took (answering_first 1) k * 1000.
Proof.
  intros out.
  apply (successful_predict_returns_last_answer (answering_first 1)
           (Single [("x", VInt 1)]) (Some [])
           (PredictionClient_circuit_breaker, world_at 0)
           {| predictions := []; deployed_model_id := "model";
              metadata := []; latency_ms := 0 |}).
  reflexivity.
Defined.


(** X6. A [predict] call sleeps only between attempts: not at all, or 1
    second, or 1 then 2 seconds, so at most 3 seconds; and the time the call
    takes is the time slept plus the time spent in its remote invocations. *)
Theorem predict_time_is_backoff_plus_remote (remote : Remote) (instances : Instances)
    (parameters : option Dict) (st : St) :
  let out := predict remote instances parameters st in
  let added := drop (length (trace st.2)) (trace out.2.2) in
  let invoked := (rpc_count out.2.2 - rpc_count st.2)%nat in
  (sleeps added = [] ∨ sleeps added = [1] ∨ sleeps added = [1; 2]) ∧
  clock out.2.2 - clock st.2 =
    foldr Z.add 0 (sleeps added) + remote_time remote (rpc_count st.2) invoked.
Proof.
  intros out added invoked. destruct st as [cb w].
  destruct (predict_account remote instances parameters cb w)
    as (delta & m & Ht & Hm & Hsl & _ & Hrpc & Hclk & _).
  subst added invoked out. simpl. rewrite Ht, drop_app_length, Hclk, Hrpc, Hsl.
  replace (rpc_count w + rpcs delta - rpc_count w)%nat with (rpcs delta) by lia.
  split; [|lia].
  destruct m as [|[|[|m]]]; [by left | by right; left | by right; right | lia].
Qed.



(** X7. While the breaker is open and stays within its recovery timeout, a
    [predict] call reaches the remote service not once, yet it goes through
    all three attempts and sleeps 1 and then 2 seconds before it fails; the
    breaker is left as it was. *)
Theorem rejected_call_still_backs_off (remote : Remote) (instances : Instances)
    (parameters : option Dict) (cb : CircuitBreaker) (w : World) (t : Z) :
  state cb = OPEN →
  last_failure_time cb = Some t →
  clock w + 3 - t < recovery_timeout cb →
  let out := predict remote instances parameters (cb, w) in
  succeeded out.1 = false ∧
  out.2.1 = cb ∧
  rpc_count out.2.2 = rpc_count w ∧
  sleeps (drop (length (trace w)) (trace out.2.2)) = [1; 2] ∧
  clock out.2.2 = clock w + 3.
Proof.
  intros Ho Ht Hel out.
  destruct (open_breaker_is_retried remote instances parameters cb w t Ho Ht Hel)
    as (Hf & Hcb & Hrpc & Htr).
  destruct (predict_account remote instances parameters cb w)
    as (delta & m & Ht' & _ & _ & _ & Hrpc' & Hclk & _).
  fold out in Hf, Hcb, Hrpc, Htr, Ht', Hrpc', Hclk.
  assert (rpcs delta = O) as Hz by lia.
  assert (delta = [LogPredictionFailed circuit_open_error; EvSleep 1;
                   LogPredictionFailed circuit_open_error; EvSleep 2;
                   LogPredictionFailed circuit_open_error]) as Hd.
  { rewrite Htr in Ht'. by apply app_inv_head in Ht'. }
  repeat split; [done | done | done | |].
  - by rewrite Htr, drop_app_length.
  - rewrite Hclk, Hz, Hd. simpl. lia.
Qed.

Lemma rejected_call_still_backs_off_witness :
  let cb := step (CircuitBreaker_init 1 60 Exception_) (failing_call 0) (world_at 0) in
  let out := predict (answering_first 9) (Single []) None (cb, world_at 10) in
  succeeded out.1 = false ∧
  out.2.1 = cb ∧
  rpc_count out.2.2 = 0%nat ∧
  sleeps (drop 0 (trace out.2.2)) = [1; 2] ∧
  clock out.2.2 = 10 + 3.
Proof.
  intros cb.
  apply (rejected_call_still_backs_off (answering_first 9) (Single []) None
           cb (world_at 10) 0);
    [reflexivity | reflexivity | simpl; lia].
Defined.



(** ** Failing calls and the threshold *)







(** ** More on predict_batch *)

(** X10. A batch size of 0 makes [predict_batch] raise the [ValueError] of
    [range] (even for an empty list), and a negative batch size, or an empty
    list with a non-zero batch size, makes it return the empty list; in all
    these cases [predict] is not called and nothing changes. *)
Theorem degenerate_batch_sends_nothing
    (self_predict : list Dict → option Dict → St → Result PredictionResponse * St)
    (instances : list Dict) (batch_size : Z) (parameters : option Dict) (st : St) :
  batch_size ≤ 0 ∨ instances = [] →
  predict_batch_with self_predict instances batch_size parameters st =
  (if bool_decide (batch_size = 0)
   then inl (Raised ValueError_ "range() arg 3 must not be zero")
   else inr [], st).
Proof.
  intros Hdeg. unfold predict_batch_with, range.
  case_bool_decide as Hz; [done|].
  assert (range_len 0 (Z.of_nat (length instances)) batch_size = O) as ->; [|done].
  unfold range_len. destruct Hdeg as [Hneg| ->].
  - repeat case_bool_decide; try done; lia.
  - simpl. repeat case_bool_decide; try done; lia.
Qed.

Lemma degenerate_batch_sends_nothing_witness :
  predict_batch_with (recording_predict 9) hundred (-32) None
    (PredictionClient_circuit_breaker, world_at 0)
  = (inr [], (PredictionClient_circuit_breaker, world_at 0)).
Proof.
  apply (degenerate_batch_sends_nothing (recording_predict 9) hundred (-32) None
           (PredictionClient_circuit_breaker, world_at 0)).
  left. lia.
Defined.

(** X11. For a batch size of at least 1 the number of chunks is
    [(len(instances) - 1) // batch_size + 1], the total that the progress
    line of the log reports (0 for an empty list); and a non-empty list not
    longer than the batch size is sent as one chunk, whole. *)
Theorem batches_count (instances : list Dict) (batch_size : Z) :
  1 ≤ batch_size →
  Z.of_nat (length (batches instances batch_size))
    = (Z.of_nat (length instances) - 1) / batch_size + 1 ∧
  (instances ≠ [] → Z.of_nat (length instances) ≤ batch_size →
   batches instances batch_size = [instances]).
Proof.
  intros Hbs. rewrite batches_eq by done.
  rewrite length_fmap, length_seq. unfold range_len.
  rewrite bool_decide_true by lia.
  replace (Z.of_nat (length instances) - 0 - 1) with (Z.of_nat (length instances) - 1)
    by lia.
  split.
  - case_bool_decide as Hn.
    + rewrite Z2Nat.id; [done|].
      assert (0 ≤ (Z.of_nat (length instances) - 1) / batch_size)
        by (apply Z.div_pos; lia). lia.
    + assert (length instances = O) as -> by lia.
      change (Z.of_nat 0 - 1) with (-1).
      assert ((-1) / batch_size = -1) as ->; [|done].
      symmetry. apply (Z.div_unique_pos (-1) batch_size (-1) (batch_size - 1)); lia.
  - intros Hne Hle. rewrite bool_decide_true by (destruct instances; [done|simpl; lia]).
    rewrite Z.div_small by (destruct instances; [done|simpl in *; lia]).
    simpl. rewrite drop_0. f_equal. apply take_ge. lia.
Qed.

Lemma batches_count_witness :
  Z.of_nat (length (batches hundred 32)) = (Z.of_nat (length hundred) - 1) / 32 + 1 ∧
  (hundred ≠ [] → Z.of_nat (length hundred) ≤ 32 → batches hundred 32 = [hundred]).
Proof. apply (batches_count hundred 32). lia. Defined.

Lemma predict_rpc_bound remote instances parameters st :
  let out := predict remote instances parameters st in
  (rpc_count st.2 ≤ rpc_count out.2.2 ≤ rpc_count st.2 + 3)%nat.
Proof.
  intros out. destruct st as [cb w].
  destruct (predict_run remote instances parameters cb w)
    as (failed & final & _ & Hlen & Hall & Hfin & Hrpc & _).
  fold out in Hfin, Hrpc.
  assert (Forall (λ b, ∃ ok, attempt_block ok b) (failed ++ [final])) as Hblocks.
  { apply Forall_app. split.
    - eapply Forall_impl; [exact Hall|]. intros b Hb. by exists false.
    - apply Forall_singleton. by eexists. }
  pose proof (rpcs_join_attempts 1 _ Hblocks) as Hle. rewrite length_app in Hle.
  simpl in *. lia.
Qed.

Lemma predict_batch_loop_rpc_bound remote instances batch_size parameters indices acc st :
  let out :=
    predict_batch_loop (λ batch, predict remote (Many batch)) instances batch_size
      parameters indices acc st in
  (rpc_count out.2.2 ≤ rpc_count st.2 + 3 * length indices)%nat.
Proof.
  revert acc st. induction indices as [|i rest IH]; intros acc st; cbn [predict_batch_loop].
  - simpl. lia.
  - pose proof (predict_rpc_bound remote
                  (Many (slice instances i (i + batch_size))) parameters st) as Hb.
    destruct (predict remote _ parameters st) as [[e|response] st1]; simpl in Hb.
    + simpl. lia.
    + specialize (IH (acc ++ [response])
                    (st1.1, emit (LogProcessedBatch (i / batch_size + 1)
                       ((Z.of_nat (length instances) - 1) / batch_size + 1)) st1.2)).
      simpl in IH. simpl. lia.
Qed.

(** X12. With a batch size of at least 1, [predict_batch] makes at most
    three remote invocations per chunk. *)
Theorem predict_batch_invocations_bounded (remote : Remote) (instances : list Dict)
    (batch_size : Z) (parameters : option Dict) (st : St) :
  1 ≤ batch_size →
  let out := predict_batch remote instances batch_size parameters st in
  Z.of_nat (rpc_count out.2.2) - Z.of_nat (rpc_count st.2)
    ≤ 3 * ((Z.of_nat (length instances) - 1) / batch_size + 1).
Proof.
  intros Hbs out.
  destruct (batches_count instances batch_size Hbs) as [Hcount _].
  rewrite <- Hcount. unfold batches in *.
  subst out. unfold predict_batch, predict_batch_with, range in *.
  rewrite bool_decide_false in * by lia.
  pose proof (predict_batch_loop_rpc_bound remote instances batch_size parameters
    ((λ k : nat, 0 + Z.of_nat k * batch_size) <$>
       seq 0 (range_len 0 (Z.of_nat (length instances)) batch_size)) [] st) as Hb.
  simpl in Hb. rewrite !length_fmap in *. lia.
Qed.

Lemma predict_batch_invocations_bounded_witness :
  let st := (PredictionClient_circuit_breaker, world_at 0) in
  let out := predict_batch (answering_first 1) hundred 32 None st in
  Z.of_nat (rpc_count out.2.2) - Z.of_nat (rpc_count st.2)
    ≤ 3 * ((Z.of_nat (length hundred) - 1) / 32 + 1).
Proof.
  intros st.
  apply (predict_batch_invocations_bounded (answering_first 1) hundred 32 None st). lia.
Defined.

(** ** health_check *)

(** X13. [health_check] is a [predict] call like any other, on the client's
    own breaker: it makes at most three remote invocations; when it answers
    [True] the remote service has answered the request
    [[{"health_check": True}]] (sent without parameters), the breaker is
    Closed and the failure counter is 0; when it answers [False] the failure
    is logged and not raised, and the failure counter has grown by the
    number of remote invocations made. *)
Theorem health_check_goes_through_breaker (remote : Remote)
    (cb : CircuitBreaker) (w : World) :
  expected_exception cb = Exception_ →
  let out := health_check remote (cb, w) in
  let invoked := (rpc_count out.2.2 - rpc_count w)%nat in
  (invoked ≤ 3)%nat ∧
  if out.1.1 then
    out.1.2 = None ∧
    state out.2.1 = CLOSED ∧
    failure_count out.2.1 = 0 ∧
    ∃ k raw, rpc_count out.2.2 = S k ∧
             reply remote k [[("health_check", VBool true)]] None = inr raw
  else
    (∃ e, out.1.2 = Some e) ∧
    failure_count out.2.1 = failure_count cb + Z.of_nat invoked.
Proof.
  intros Hex out invoked. subst invoked out. unfold health_check.
  pose proof (predict_rpc_bound remote (Single [("health_check", VBool true)]) None (cb, w))
    as Hbound.
  destruct (predict_run remote (Single [("health_check", VBool true)]) None cb w)
    as (failed & final & _ & _ & _ & _ & Hrpc & _ & Hc).
  destruct (predict_account remote (Single [("health_check", VBool true)]) None cb w)
    as (_ & _ & _ & _ & _ & _ & _ & _ & Hresp).
  specialize (Hc Hex).
  destruct (predict remote _ None (cb, w)) as [[e|r] [cb1 w1]]; simpl in *.
  - split; [lia|]. split; [by eexists|]. rewrite Hc, Hrpc. f_equal. lia.
  - split; [lia|]. destruct Hc as [Hs Hc]. repeat split; [done | done |].
    destruct (Hresp r eq_refl) as (k & raw & Hk & Hraw & _). by exists k, raw.
Qed.

Lemma health_check_goes_through_breaker_witness :
  let out := health_check (always_failing "boom")
               (PredictionClient_circuit_breaker, world_at 0) in
  ((rpc_count out.2.2 - 0)%nat ≤ 3)%nat ∧
  (∃ e, out.1.2 = Some e) ∧
  failure_count out.2.1 = 0 + Z.of_nat (rpc_count out.2.2 - 0)%nat.
Proof.
  intros out.
  apply (health_check_goes_through_breaker (always_failing "boom")
           PredictionClient_circuit_breaker (world_at 0)).
  reflexivity.
Defined.

(** X14. While the breaker is open and within its recovery timeout,
    [health_check] answers [False] without reaching the remote service, and
    leaves the breaker as it was. *)
Theorem health_check_of_open_breaker (remote : Remote)
    (cb : CircuitBreaker) (w : World) (t : Z) :
  state cb = OPEN →
  last_failure_time cb = Some t →
  clock w + 3 - t < recovery_timeout cb →
  let out := health_check remote (cb, w) in
  out.1.1 = false ∧ out.2.1 = cb ∧ rpc_count out.2.2 = rpc_count w.
Proof.
  intros Ho Ht Hel out. subst out. unfold health_check.
  destruct (open_breaker_is_retried remote (Single [("health_check", VBool true)]) None
              cb w t Ho Ht Hel) as (Hf & Hcb & Hrpc & _).
  destruct (predict remote _ None (cb, w)) as [[e|r] st1]; simpl in *; [done|discriminate].
Qed.

Lemma health_check_of_open_breaker_witness :
  let cb := step (CircuitBreaker_init 1 60 Exception_) (failing_call 0) (world_at 0) in
  let out := health_check (answering_first 9) (cb, world_at 10) in
  out.1.1 = false ∧ out.2.1 = cb ∧ rpc_count out.2.2 = 0%nat.
Proof.
  intros cb.
  apply (health_check_of_open_breaker (answering_first 9) cb (world_at 10) 0);
    [reflexivity | reflexivity | simpl; lia].
Defined.

(** ** VertexAIClient: traffic splits and metric filters *)


(** The empty split is refused, and the text says what the sum was. *)
Example empty_split_is_refused :
  update_traffic_split ∅ [] =
  (inl (Raised ValueError_ "Traffic split must sum to 100, got 0"), []).
Proof. reflexivity. Qed.

